(** * PageRank: a shallow embedding of [pagerank.py]

    The three functions of the estimation engine, [transition_model],
    [sample_pagerank] and [iterate_pagerank], are embedded as Rocq functions
    and the properties of the specification are stated and proved about them.

    Modelling decisions.
    - Python floats are idealised as exact rationals ([Q], compared with
      [==]). What is proved on this exact model and depends on exactness
      says so ("in exact arithmetic"); module [Double] has the same
      functions on IEEE doubles, with the rounded operations, to evaluate on
      concrete inputs what rounding does.
    - A Python [dict] is an insertion-ordered association list: iteration
      order is observable in this program (the order of the update pass, the
      population handed to [random.choices]). A list can repeat a key and a
      [dict] cannot, so the theorems assume [NoDup (keys corpus)].
    - A Python [set] of page names is a [gset string].
    - Exceptions are values of an error monad, [Py.result].
    - The ambient pseudo-random generator is a sequence [rnd : nat -> Q] of
      variates of [random.random()], the [k]-th draw of the run being
      [rnd k].
    - The [while] loop of [iterate_pagerank] runs on fuel; [None] means that
      the fuel ran out, never that the program stopped. *)

From Stdlib Require Import QArith Qround Qabs Lqa Lia.
From Stdlib Require Import Floats.
From stdpp Require Import gmap strings list.

Open Scope Q_scope.

(** ** The fragment of Python the program relies on *)

Module Py.

Inductive exn : Type :=
| ValueError (msg : string)
| IndexError
| KeyError (key : string)
| ZeroDivisionError.

Inductive result (A : Type) : Type :=
| Ok (a : A)
| Raise (e : exn).
Arguments Ok {A} a.
Arguments Raise {A} e.

#[global] Instance result_ret : MRet result := fun _ a => Ok a.
#[global] Instance result_bind : MBind result := fun _ _ k c =>
  match c with
  | Ok a => k a
  | Raise e => Raise e
  end.

(** [for x in xs: s = body(s, x)], stopping at the first exception. *)
Fixpoint for_each {A S : Type} (xs : list A) (body : S → A → result S)
    (s : S) : result S :=
  match xs with
  | [] => Ok s
  | x :: xs' => s' ← body s x; for_each xs' body s'
  end.

(** [int] to [float]. *)
Definition of_nat (n : nat) : Q := inject_Z (Z.of_nat n).

(** True division [a / b]. *)
Definition true_div (a b : Q) : result Q :=
  if Qeq_bool b 0 then Raise ZeroDivisionError else Ok (a / b).

(** *** Dictionaries *)

Definition dict (V : Type) : Type := list (string * V).

Definition keys {V} (d : dict V) : list string := d.*1.
Definition values {V} (d : dict V) : list V := d.*2.
Definition len {V} (d : dict V) : nat := length d.

Fixpoint lookup {V} (d : dict V) (k : string) : option V :=
  match d with
  | [] => None
  | (k', v) :: d' => if String.eqb k' k then Some v else lookup d' k
  end.

(** [k in d] *)
Definition contains {V} (d : dict V) (k : string) : bool :=
  match lookup d k with Some _ => true | None => false end.

(** [d[k]] *)
Definition get {V} (d : dict V) (k : string) : result V :=
  match lookup d k with
  | Some v => Ok v
  | None => Raise (KeyError k)
  end.

(** [d[k] = v]: an existing key keeps its position, a new one goes last. *)
Fixpoint set {V} (d : dict V) (k : string) (v : V) : dict V :=
  match d with
  | [] => [(k, v)]
  | (k', v') :: d' =>
      if String.eqb k' k then (k', v) :: d' else (k', v') :: set d' k v
  end.

(** [seq[i]] *)
Definition index {A} (l : list A) (i : nat) : result A :=
  match l !! i with
  | Some x => Ok x
  | None => Raise IndexError
  end.

(** *** The [random] module

    [u] is the variate [random.random()] returns for the draw, a number of
    the interval [0, 1). *)

(** [random.choice(seq)]: [seq[floor(u * len(seq))]]. *)
Definition choice {A} (seq : list A) (u : Q) : result A :=
  if (length seq =? 0)%nat then Raise IndexError
  else index seq (Z.to_nat (Qfloor (u * of_nat (length seq)))).

(** [itertools.accumulate(weights)]: the running sums. *)
Fixpoint accumulate_from (acc : Q) (weights : list Q) : list Q :=
  match weights with
  | [] => []
  | w :: ws => (acc + w) :: accumulate_from (acc + w) ws
  end.

Definition accumulate (weights : list Q) : list Q :=
  match weights with
  | [] => []
  | w :: ws => w :: accumulate_from w ws
  end.

(** [bisect.bisect_right(a, x, 0, hi)] on a sorted [a]: the first position
    below [hi] whose entry exceeds [x], and [hi] when there is none. *)
Fixpoint bisect (a : list Q) (x : Q) (hi : nat) : nat :=
  match hi, a with
  | O, _ => O
  | _, [] => O
  | S hi', c :: a' => if Qle_bool c x then S (bisect a' x hi') else O
  end.

(** [random.choices(population, weights)] with the default [k=1]. *)
Definition choices {A} (population : list A) (weights : list Q) (u : Q)
    : result (list A) :=
  let n := length population in
  let cum_weights := accumulate weights in
  if negb (length cum_weights =? n)%nat then
    Raise (ValueError "The number of weights does not match the population")
  else
    total ← index cum_weights (length cum_weights - 1);
    if Qle_bool total 0 then
      Raise (ValueError "Total of weights must be greater than zero")
    else
      x ← index population (bisect cum_weights (u * total) (n - 1));
      Ok [x].

End Py.

Import Py.

(** ** The program *)

Definition DAMPING : Q := 85 # 100.
Definition SAMPLES : Z := 10000.

(** The corpus maps each page to the set of pages it links to. *)
Abbreviation corpus_t := (dict (gset string)).

(** The message of the [ValueError] of [transition_model]. *)
Definition not_found (page : string) : string :=
  String.append "Page '" (String.append page "' not found in corpus.").

Definition transition_model (corpus : corpus_t) (page : string)
    (damping_factor : Q) : result (dict Q) :=
  let transition_model : dict Q := [] in
  if negb (contains corpus page) then Raise (ValueError (not_found page))
  else
    links ← get corpus page;
    links_prob ←
      (if negb (size links =? 0)%nat
       then true_div damping_factor (of_nat (size links))
       else Ok 0);
    random_prob ← true_div (1 - damping_factor) (of_nat (len corpus));
    Ok (foldl
          (fun tm p =>
             if bool_decide (p ∈ links)
             then set tm p (links_prob + random_prob)
             else set tm p random_prob)
          transition_model (keys corpus)).

(** One step of the walk: the body of [for i in range(n - 1)]. The state is
    the pair of the counters and the current page. *)
Definition sample_step (corpus : corpus_t) (damping_factor : Q)
    (rnd : nat → Q) (st : dict Z * string) (i : nat)
    : result (dict Z * string) :=
  let '(pageRanks, cur) := st in
  tm ← transition_model corpus cur damping_factor;
  cur_list ← choices (keys tm) (values tm) (rnd (S i));
  cur ← index cur_list 0;
  c ← get pageRanks cur;
  Ok (set pageRanks cur (c + 1)%Z, cur).

(** [pageRanks[page] /= n] for every page. *)
Fixpoint divide_all (pageRanks : dict Z) (n : Z) : result (dict Q) :=
  match pageRanks with
  | [] => Ok []
  | (page, c) :: rest =>
      q ← true_div (inject_Z c) (inject_Z n);
      rest' ← divide_all rest n;
      Ok ((page, q) :: rest')
  end.

Definition sample_pagerank (corpus : corpus_t) (damping_factor : Q) (n : Z)
    (rnd : nat → Q) : result (dict Q) :=
  let pageRanks : dict Z :=
    foldl (fun pr page => set pr page 0%Z) [] (keys corpus) in
  cur ← choice (keys corpus) (rnd O);
  c ← get pageRanks cur;
  let pageRanks := set pageRanks cur (c + 1)%Z in
  st ← for_each (seq 0 (Z.to_nat (n - 1)))
         (sample_step corpus damping_factor rnd) (pageRanks, cur);
  divide_all st.1 n.

(** What [links] denotes in the inner loop of [iterate_pagerank]: the page's
    own set, or the key view of the corpus when that set is empty. *)
Inductive links_t : Type :=
| LinkSet (s : gset string)
| CorpusKeys (corpus : corpus_t).

Definition links_len (l : links_t) : nat :=
  match l with
  | LinkSet s => size s
  | CorpusKeys c => len c
  end.

Definition links_contains (l : links_t) (page : string) : bool :=
  match l with
  | LinkSet s => bool_decide (page ∈ s)
  | CorpusKeys c => contains c page
  end.

(** The body of [for p in corpus.keys()], accumulating [summation]. *)
Definition summation_step (corpus : corpus_t) (pageRanks : dict Q)
    (page : string) (summation : Q) (p : string) : result Q :=
  links ← get corpus p;
  let links :=
    if (size links =? 0)%nat then CorpusKeys corpus else LinkSet links in
  if links_contains links page then
    r ← get pageRanks p;
    q ← true_div r (of_nat (links_len links));
    Ok (summation + q)
  else Ok summation.

(** The rank computed for [page] from the ranks held by [pageRanks]. *)
Definition new_rank (corpus : corpus_t) (damping_factor : Q)
    (pageRanks : dict Q) (page : string) : result Q :=
  newRank ← true_div (1 - damping_factor) (of_nat (len corpus));
  summation ← for_each (keys corpus) (summation_step corpus pageRanks page) 0;
  Ok (newRank + damping_factor * summation).

Definition tolerance : Q := 1 # 1000.

(** The variables of the [while] loop. *)
Record loop_state : Type := LoopState {
  st_pageRanks : dict Q;
  st_converged : bool;
  st_converged_count : nat
}.

(** The body of [for page in corpus.keys()] of the update pass. *)
Definition update_step (corpus : corpus_t) (damping_factor : Q)
    (st : dict Q * nat) (page : string) : result (dict Q * nat) :=
  let '(pageRanks, converged_count) := st in
  newRank ← new_rank corpus damping_factor pageRanks page;
  old ← get pageRanks page;
  within ←
    (if Qle_bool newRank (old + tolerance)
     then old' ← get pageRanks page; Ok (Qle_bool (old' - tolerance) newRank)
     else Ok false);
  let converged_count :=
    if within : bool then S converged_count else converged_count in
  Ok (set pageRanks page newRank, converged_count).

(** The body of [while not converged]. *)
Definition loop_body (corpus : corpus_t) (damping_factor : Q)
    (st : loop_state) : result loop_state :=
  '(pageRanks, converged_count) ←
    for_each (keys corpus) (update_step corpus damping_factor)
      (st_pageRanks st, st_converged_count st);
  if (converged_count =? len corpus)%nat
  then Ok (LoopState pageRanks true converged_count)
  else Ok (LoopState pageRanks (st_converged st) 0).

Fixpoint while_not_converged (fuel : nat) (corpus : corpus_t)
    (damping_factor : Q) (st : loop_state) : option (result loop_state) :=
  if st_converged st then Some (Ok st)
  else
    match fuel with
    | O => None
    | S fuel' =>
        match loop_body corpus damping_factor st with
        | Ok st' => while_not_converged fuel' corpus damping_factor st'
        | Raise e => Some (Raise e)
        end
    end.

(** The ranks before the first pass. *)
Definition initial_ranks (corpus : corpus_t) : result (dict Q) :=
  for_each (keys corpus)
    (fun pr page => q ← true_div 1 (of_nat (len corpus)); Ok (set pr page q))
    [].

Definition iterate_pagerank (fuel : nat) (corpus : corpus_t)
    (damping_factor : Q) : option (result (dict Q)) :=
  match initial_ranks corpus with
  | Raise e => Some (Raise e)
  | Ok pageRanks =>
      match while_not_converged fuel corpus damping_factor
              (LoopState pageRanks false 0) with
      | None => None
      | Some (Raise e) => Some (Raise e)
      | Some (Ok st) => Some (Ok (st_pageRanks st))
      end
  end.

(** ** Vocabulary of the specification *)

(** The sum of the values of a distribution. *)
Definition Qsum (l : list Q) : Q := foldr Qplus 0 l.

(** The rank a dictionary holds for a page. *)
Definition rank (pageRanks : dict Q) (q : string) : Q :=
  default 0 (lookup pageRanks q).

Definition Zsum (l : list Z) : Z := foldr Z.add 0%Z l.

(** The weights [transition_model] hands out for a page with links [links]. *)
Definition links_prob_of (damping_factor : Q) (links : gset string) : Q :=
  if negb (size links =? 0)%nat
  then damping_factor / of_nat (size links)
  else 0.

Definition random_prob_of (corpus : corpus_t) (damping_factor : Q) : Q :=
  (1 - damping_factor) / of_nat (len corpus).

Definition weight_of (corpus : corpus_t) (damping_factor : Q)
    (links : gset string) (p : string) : Q :=
  if bool_decide (p ∈ links)
  then links_prob_of damping_factor links + random_prob_of corpus damping_factor
  else random_prob_of corpus damping_factor.


(** The counters of a walk divided by its length. *)
Definition frequencies (counts : dict Z) (n : Z) : dict Q :=
  (fun entry => (entry.1, inject_Z entry.2 / inject_Z n)) <$> counts.

(** What the walk of [sample_pagerank] maintains after [m] visits: a counter
    for every page, none negative, [m] in total, and a current page of the
    graph. *)
Definition walk_inv (corpus : corpus_t) (m : Z) (st : dict Z * string) : Prop :=
  keys st.1 = keys corpus
  ∧ st.2 ∈ keys corpus
  ∧ Forall (fun c => (0 <= c)%Z) (values st.1)
  ∧ Zsum (values st.1) = m.

(** The state at the head of the [while] loop whenever the loop goes on:
    every page has a rank, the flag is down and the counter is zero. *)
Definition loop_head (corpus : corpus_t) (st : loop_state) : Prop :=
  keys (st_pageRanks st) = keys corpus
  ∧ st_converged st = false
  ∧ st_converged_count st = O.


(** The rank equation, in the words of the specification: [q] links to [p]
    when [p] is among its links, a node without links links to every node
    and its out-degree is then the number of nodes. *)
Definition links_to (p : string) (entry : string * gset string) : bool :=
  if (size entry.2 =? 0)%nat then true else bool_decide (p ∈ entry.2).

Definition out_degree (corpus : corpus_t) (entry : string * gset string)
    : nat :=
  if (size entry.2 =? 0)%nat then len corpus else size entry.2.

(** One term of the sum: the share of its rank that [entry] passes on. *)
Definition contribution (corpus : corpus_t) (ranks : dict Q)
    (entry : string * gset string) : Q :=
  rank ranks entry.1 / of_nat (out_degree corpus entry).

Definition rank_equation (corpus : corpus_t) (damping_factor : Q)
    (ranks : dict Q) (p : string) : Q :=
  (1 - damping_factor) / of_nat (len corpus)
  + damping_factor
    * Qsum (contribution corpus ranks <$> List.filter (links_to p) corpus).

(** The convergence test of one node. *)
Definition within_tolerance (newRank old : Q) : bool :=
  Qle_bool newRank (old + tolerance) && Qle_bool (old - tolerance) newRank.

(** The variates of the random source lie in [0, 1). *)
Definition unit_variates (rnd : nat → Q) : Prop := ∀ k, 0 <= rnd k ∧ rnd k < 1.

(** Small corpora used as test inputs. *)
Definition corpus_solo : corpus_t := [("1"%string, ∅)].
Definition corpus_dangling : corpus_t :=
  [("1"%string, {["2"%string]}); ("2"%string, ∅)].
Definition corpus_abc : corpus_t :=
  [("A"%string, {["B"%string]}); ("B"%string, {["A"%string]});
   ("C"%string, {["A"%string]})].
Definition corpus_bac : corpus_t :=
  [("B"%string, {["A"%string]}); ("A"%string, {["B"%string]});
   ("C"%string, {["A"%string]})].

(** ** The corpus builder

    [crawl] reads a directory. The directory is given by what [os.listdir]
    and [open(...).read()] return for it: the file names, in listing order,
    each with the contents of the file. [re.findall] with the pattern of the
    program is the parameter [findall]: the list of the captured [href]
    values of a page, in order, with repetitions. *)

(** [s.endswith(suffix)] *)
Definition endswith (s suffix : string) : bool :=
  let n := String.length suffix in
  let m := String.length s in
  (n <=? m)%nat && String.eqb (String.substring (m - n) n s) suffix.

(** The body of the first loop of [crawl]. *)
Definition crawl_read (findall : string → list string) (pages : corpus_t)
    (entry : string * string) : corpus_t :=
  let '(filename, contents) := entry in
  if negb (endswith filename ".html") then pages
  else
    let links := findall contents in
    set pages filename (list_to_set links ∖ {[filename]}).

(** The body of the second loop of [crawl]. *)
Definition crawl_restrict (pages : corpus_t) (filename : string)
    : result corpus_t :=
  links ← get pages filename;
  Ok (set pages filename
        (filter (fun link => contains pages link = true) links)).

Definition crawl (findall : string → list string)
    (directory : list (string * string)) : result corpus_t :=
  let pages := foldl (crawl_read findall) [] directory in
  for_each (keys pages) crawl_restrict pages.

(** The pages of a directory: its entries named [*.html]. *)
Definition html_entries (directory : list (string * string))
    : list (string * string) :=
  List.filter (fun entry => endswith entry.1 ".html") directory.

(** ** Further vocabulary *)

(** The page [random.choice] picks from the keys for the variate [u]. *)
Definition start_page (corpus : corpus_t) (u : Q) : result string :=
  choice (keys corpus) u.

(** The counters after the first visit alone. *)
Definition first_visit (corpus : corpus_t) (cur : string) : dict Z :=
  (fun p => (p, if String.eqb p cur then 1%Z else 0%Z)) <$> keys corpus.

(** Every rank a dictionary holds is non-negative. *)
Definition ranks_nonneg (ranks : dict Q) : Prop := ∀ q, 0 <= rank ranks q.

(** Every page of the corpus has rank [1/N]. *)
Definition ranks_uniform (corpus : corpus_t) (ranks : dict Q) : Prop :=
  ∀ q, q ∈ keys corpus → rank ranks q == 1 / of_nat (len corpus).

(** The shares of a unit of rank that reach [p] add up to one: the uniform
    vector satisfies the rank equation at [p]. *)
Definition balanced_at (corpus : corpus_t) (p : string) : Prop :=
  Qsum ((fun entry => 1 / of_nat (out_degree corpus entry))
          <$> List.filter (links_to p) corpus) == 1.

Definition balanced (corpus : corpus_t) : Prop :=
  ∀ p, p ∈ keys corpus → balanced_at corpus p.

(** A three-page cycle and a directory, used as test inputs. *)
Definition corpus_cycle : corpus_t :=
  [("A"%string, {["B"%string]}); ("B"%string, {["C"%string]});
   ("C"%string, {["A"%string]})].
Definition corpus_leaky : corpus_t :=
  [("1"%string, {["2"%string; "9"%string]}); ("2"%string, ∅)].
Definition words (contents : string) : list string :=
  match contents with
  | EmptyString => []
  | _ => [contents; "notes.txt"%string]
  end.
Definition directory_demo : list (string * string) :=
  [("a.html"%string, "b.html"%string); ("notes.txt"%string, "a.html"%string);
   ("b.html"%string, "b.html"%string); ("c.html"%string, ""%string)].

(** ** The program on doubles

    A Python [float] is an IEEE 754 binary64 number, and so is a [float] of
    Rocq. The functions of this module are the functions of the program once
    more, with the rounded operations of [PrimFloat] where the functions
    above have the exact operations of [Q]. They are used where rounding
    decides: to evaluate on a concrete input what the exact model cannot
    show. An [int] is converted exactly as long as it is below 2^53. *)

Module Double.

Definition of_Z (z : Z) : float :=
  match z with
  | Z0 => PrimFloat.of_uint63 (Uint63.of_Z 0)
  | Zpos _ => PrimFloat.of_uint63 (Uint63.of_Z z)
  | Zneg p => PrimFloat.opp (PrimFloat.of_uint63 (Uint63.of_Z (Zpos p)))
  end.

Definition of_nat (n : nat) : float := of_Z (Z.of_nat n).

Definition true_div (a b : float) : result float :=
  if PrimFloat.eqb b (of_Z 0) then Raise ZeroDivisionError
  else Ok (PrimFloat.div a b).

(** The values of a dictionary added up in order, with the rounded [+]. *)
Definition total (l : list float) : float := foldl PrimFloat.add (of_Z 0) l.

Definition transition_model (corpus : corpus_t) (page : string)
    (damping_factor : float) : result (dict float) :=
  let transition_model : dict float := [] in
  if negb (contains corpus page) then Raise (ValueError (not_found page))
  else
    links ← get corpus page;
    links_prob ←
      (if negb (size links =? 0)%nat
       then true_div damping_factor (of_nat (size links))
       else Ok (of_Z 0));
    random_prob ←
      true_div (PrimFloat.sub (of_Z 1) damping_factor) (of_nat (len corpus));
    Ok (foldl
          (fun tm p =>
             if bool_decide (p ∈ links)
             then set tm p (PrimFloat.add links_prob random_prob)
             else set tm p random_prob)
          transition_model (keys corpus)).

(** [floor(x)] for [0 <= x < n + 1]: the number of [k] in [1..n] that are
    at most [x]. *)
Definition floor_upto (x : float) (n : nat) : nat :=
  length (List.filter (fun k => PrimFloat.leb (of_nat k) x) (seq 1 n)).

(** [random.choice(seq)]: [seq[floor(u * len(seq))]]. *)
Definition choice {A} (seq : list A) (u : float) : result A :=
  if (length seq =? 0)%nat then Raise IndexError
  else index seq (floor_upto (PrimFloat.mul u (of_nat (length seq)))
                    (length seq)).

Fixpoint accumulate_from (acc : float) (weights : list float) : list float :=
  match weights with
  | [] => []
  | w :: ws =>
      PrimFloat.add acc w :: accumulate_from (PrimFloat.add acc w) ws
  end.

Definition accumulate (weights : list float) : list float :=
  match weights with
  | [] => []
  | w :: ws => w :: accumulate_from w ws
  end.

Fixpoint bisect (a : list float) (x : float) (hi : nat) : nat :=
  match hi, a with
  | O, _ => O
  | _, [] => O
  | S hi', c :: a' => if PrimFloat.leb c x then S (bisect a' x hi') else O
  end.

Definition is_finite (x : float) : bool :=
  negb (PrimFloat.is_nan x) && negb (PrimFloat.is_infinity x).

Definition choices {A} (population : list A) (weights : list float)
    (u : float) : result (list A) :=
  let n := length population in
  let cum_weights := accumulate weights in
  if negb (length cum_weights =? n)%nat then
    Raise (ValueError "The number of weights does not match the population")
  else
    total ← index cum_weights (length cum_weights - 1);
    let total := PrimFloat.add total (of_Z 0) in
    if PrimFloat.leb total (of_Z 0) then
      Raise (ValueError "Total of weights must be greater than zero")
    else if negb (is_finite total) then
      Raise (ValueError "Total of weights must be finite")
    else
      x ← index population
            (bisect cum_weights (PrimFloat.mul u total) (n - 1));
      Ok [x].

Definition sample_step (corpus : corpus_t) (damping_factor : float)
    (rnd : nat → float) (st : dict Z * string) (i : nat)
    : result (dict Z * string) :=
  let '(pageRanks, cur) := st in
  tm ← transition_model corpus cur damping_factor;
  cur_list ← choices (keys tm) (values tm) (rnd (S i));
  cur ← index cur_list 0;
  c ← get pageRanks cur;
  Ok (set pageRanks cur (c + 1)%Z, cur).

Fixpoint divide_all (pageRanks : dict Z) (n : Z) : result (dict float) :=
  match pageRanks with
  | [] => Ok []
  | (page, c) :: rest =>
      q ← true_div (of_Z c) (of_Z n);
      rest' ← divide_all rest n;
      Ok ((page, q) :: rest')
  end.

Definition sample_pagerank (corpus : corpus_t) (damping_factor : float)
    (n : Z) (rnd : nat → float) : result (dict float) :=
  let pageRanks : dict Z :=
    foldl (fun pr page => set pr page 0%Z) [] (keys corpus) in
  cur ← choice (keys corpus) (rnd O);
  c ← get pageRanks cur;
  let pageRanks := set pageRanks cur (c + 1)%Z in
  st ← for_each (seq 0 (Z.to_nat (n - 1)))
         (sample_step corpus damping_factor rnd) (pageRanks, cur);
  divide_all st.1 n.

(** The doubles nearest to 0.85, 0.1, 0.5 and 0.9. *)
Definition damping : float := PrimFloat.div (of_Z 85) (of_Z 100).
Definition tenth : float := PrimFloat.div (of_Z 1) (of_Z 10).
Definition half : float := PrimFloat.div (of_Z 1) (of_Z 2).
Definition nine_tenths : float := PrimFloat.div (of_Z 9) (of_Z 10).

End Double.

(** A page linking to three pages without links, three pages without
    links, and a run of variates that visits them 6, 3 and 1 times. *)
Definition corpus_star : corpus_t :=
  [("a"%string, {["b"%string; "c"%string; "d"%string]});
   ("b"%string, ∅); ("c"%string, ∅); ("d"%string, ∅)].
Definition corpus_isolated : corpus_t :=
  [("a"%string, ∅); ("b"%string, ∅); ("c"%string, ∅)].
Definition variates_631 (k : nat) : float :=
  if (k <? 6)%nat then Double.tenth
  else if (k <? 9)%nat then Double.half
  else Double.nine_tenths.


(** Closed decidable goals are settled by evaluation. *)
Ltac decide_closed := apply (bool_decide_unpack _); vm_compute; exact I.

(** ** Dictionaries *)

Section dict_facts.
Context {V : Type}.
Implicit Types (d : dict V) (k : string) (v : V).

Lemma lookup_None d k : lookup d k = None ↔ k ∉ keys d.
Proof.
  induction d as [|[k' v'] d IH]; simpl.
  - split; [intros _; apply not_elem_of_nil | reflexivity].
  - destruct (String.eqb_spec k' k) as [->|Hne].
    + split; [discriminate | intros []; left].
    + rewrite IH, not_elem_of_cons.
      split; [intros ?; split; [congruence | done] | by intros [_ ?]].
Qed.

Lemma lookup_is_Some d k : is_Some (lookup d k) ↔ k ∈ keys d.
Proof.
  rewrite <- not_eq_None_Some, lookup_None.
  split; [apply dec_stable | auto].
Qed.

Lemma lookup_Some_elem d k v : lookup d k = Some v → (k, v) ∈ d.
Proof.
  induction d as [|[k' v'] d IH]; simpl; [done|].
  destruct (String.eqb_spec k' k) as [->|Hne].
  - intros [= ->]. left.
  - intros H. right. auto.
Qed.

Lemma elem_lookup_Some d k v :
  NoDup (keys d) → (k, v) ∈ d → lookup d k = Some v.
Proof.
  induction d as [|[k' v'] d IH]; simpl.
  - intros _ H. by apply elem_of_nil in H.
  - rewrite NoDup_cons. intros [Hk' Hnd] [[= -> ->]|Hin]%elem_of_cons.
    + by rewrite String.eqb_refl.
    + destruct (String.eqb_spec k' k) as [->|Hne]; [|auto].
      destruct Hk'. apply list_elem_of_fmap. by exists (k, v).
Qed.

Lemma contains_true d k : contains d k = true ↔ k ∈ keys d.
Proof.
  unfold contains. rewrite <- lookup_is_Some.
  destruct (lookup d k); split; intros H; eauto; try done.
Qed.

Lemma contains_false d k : contains d k = false ↔ k ∉ keys d.
Proof.
  rewrite <- contains_true. destruct (contains d k); naive_solver.
Qed.

Lemma get_Ok d k v : lookup d k = Some v → get d k = Ok v.
Proof. unfold get. by intros ->. Qed.

Lemma lookup_set_eq d k v : lookup (set d k v) k = Some v.
Proof.
  induction d as [|[k' v'] d IH]; simpl.
  - by rewrite String.eqb_refl.
  - destruct (String.eqb_spec k' k) as [->|Hne]; simpl.
    + by rewrite String.eqb_refl.
    + by destruct (String.eqb_spec k' k).
Qed.

Lemma lookup_set_ne d k k' v :
  k ≠ k' → lookup (set d k v) k' = lookup d k'.
Proof.
  intros Hne. induction d as [|[k0 v0] d IH]; simpl.
  - by destruct (String.eqb_spec k k').
  - destruct (String.eqb_spec k0 k) as [->|Hne0]; simpl.
    + by destruct (String.eqb_spec k k').
    + by rewrite IH.
Qed.

Lemma keys_set_present d k v : k ∈ keys d → keys (set d k v) = keys d.
Proof.
  induction d as [|[k' v'] d IH]; simpl.
  - intros H. by apply elem_of_nil in H.
  - destruct (String.eqb_spec k' k) as [->|Hne]; [done|].
    intros [?|Hin]%elem_of_cons; [congruence|].
    change (k' :: keys (set d k v) = k' :: keys d). by rewrite IH.
Qed.

Lemma set_absent d k v : k ∉ keys d → set d k v = d ++ [(k, v)].
Proof.
  induction d as [|[k' v'] d IH]; simpl; [done|].
  rewrite not_elem_of_cons. intros [Hne Hnin].
  destruct (String.eqb_spec k' k) as [->|_]; [done|].
  by rewrite IH.
Qed.

(** A dictionary filled key by key, from an empty one, lists the keys in
    the order of insertion. *)
Lemma foldl_set_fresh (f : string → V) (ks : list string) d :
  NoDup (keys d ++ ks) →
  foldl (fun acc p => set acc p (f p)) d ks = d ++ ((fun p => (p, f p)) <$> ks).
Proof.
  revert d. induction ks as [|k ks IH]; intros d Hnd; simpl.
  - by rewrite app_nil_r.
  - assert (k ∉ keys d) as Hk.
    { apply NoDup_app in Hnd as (_ & Hd & _). intros Hin.
      apply (Hd k Hin). left. }
    rewrite set_absent by done.
    rewrite IH.
    + by rewrite <- app_assoc.
    + unfold keys. rewrite fmap_app. simpl.
      rewrite <- app_assoc. done.
Qed.

Lemma foldl_set_empty (f : string → V) (ks : list string) :
  NoDup ks →
  foldl (fun acc p => set acc p (f p)) [] ks = (fun p => (p, f p)) <$> ks.
Proof. intros Hnd. by rewrite foldl_set_fresh. Qed.

Lemma keys_tabulate (f : string → V) (ks : list string) :
  keys ((fun p => (p, f p)) <$> ks) = ks.
Proof.
  unfold keys. rewrite <- list_fmap_compose.
  induction ks; simpl; by f_equal.
Qed.

Lemma values_tabulate (f : string → V) (ks : list string) :
  values ((fun p => (p, f p)) <$> ks) = f <$> ks.
Proof. unfold values. by rewrite <- list_fmap_compose. Qed.

Lemma lookup_tabulate (f : string → V) (ks : list string) k :
  k ∈ ks → lookup ((fun p => (p, f p)) <$> ks) k = Some (f k).
Proof.
  induction ks as [|k' ks IH]; simpl.
  - intros H. by apply elem_of_nil in H.
  - destruct (String.eqb_spec k' k) as [->|Hne]; [done|].
    intros [?|Hin]%elem_of_cons; [congruence | auto].
Qed.

Lemma len_keys d : length (keys d) = len d.
Proof. unfold keys, len. apply length_fmap. Qed.

End dict_facts.

(** ** Arithmetic *)

Lemma of_nat_eq_0 n : of_nat n == 0 ↔ n = O.
Proof.
  unfold of_nat. change 0 with (inject_Z 0).
  rewrite inject_Z_injective. lia.
Qed.

Lemma of_nat_pos n : (0 < n)%nat → 0 < of_nat n.
Proof.
  intros Hn. unfold of_nat. change 0 with (inject_Z 0).
  rewrite <- Zlt_Qlt. lia.
Qed.

Lemma of_nat_S n : of_nat (S n) == of_nat n + 1.
Proof.
  unfold of_nat. rewrite Nat2Z.inj_succ, <- Z.add_1_r, inject_Z_plus.
  reflexivity.
Qed.

Lemma true_div_Ok a b : ¬ b == 0 → true_div a b = Ok (a / b).
Proof.
  intros Hb. unfold true_div.
  destruct (Qeq_bool b 0) eqn:E; [|done].
  by apply Qeq_bool_eq in E.
Qed.

Lemma true_div_of_nat a n : (0 < n)%nat → true_div a (of_nat n) = Ok (a / of_nat n).
Proof. intros Hn. apply true_div_Ok. rewrite of_nat_eq_0. lia. Qed.

(** The sum of a two-valued weighting: the bonus [a] is paid once per member
    of the selected keys, the base [b] once per key. *)
Lemma Qsum_two_valued (P : string → Prop) `{!∀ p, Decision (P p)}
    (a b : Q) (ks : list string) :
  Qsum ((fun p => if bool_decide (P p) then a + b else b) <$> ks)
  == of_nat (length (filter P ks)) * a + of_nat (length ks) * b.
Proof.
  induction ks as [|k ks IH]; simpl.
  - unfold of_nat. simpl. ring.
  - rewrite IH, filter_cons. rewrite (of_nat_S (length ks)).
    case_bool_decide; destruct (decide (P k)); try done; simpl.
    + rewrite (of_nat_S (length (filter P ks))). ring.
    + ring.
Qed.

Lemma length_filter_links (links : gset string) (ks : list string) :
  NoDup ks → (∀ q, q ∈ links → q ∈ ks) →
  length (filter (.∈ links) ks) = size links.
Proof.
  intros Hnd Hsub. apply Permutation_length, NoDup_Permutation.
  - by apply NoDup_filter.
  - apply NoDup_elements.
  - intros q. rewrite list_elem_of_filter, elem_of_elements.
    split; [by intros [? _] | auto].
Qed.

(** ** The transition model *)

Lemma foldl_ext_elem {A B} (f g : B → A → B) (l : list A) (b : B) :
  (∀ acc x, x ∈ l → f acc x = g acc x) → foldl f b l = foldl g b l.
Proof.
  revert b. induction l as [|x l IH]; intros b Hfg; simpl; [done|].
  rewrite Hfg by left. apply IH. intros acc y Hy. apply Hfg. by right.
Qed.

Lemma lookup_len_pos {V} (d : dict V) k v : lookup d k = Some v → (0 < len d)%nat.
Proof. destruct d; simpl; [done | lia]. Qed.

(** Closed form of the dictionary [transition_model] returns. *)
Lemma transition_model_Ok corpus page d links :
  NoDup (keys corpus) → lookup corpus page = Some links →
  transition_model corpus page d
  = Ok ((fun p => (p, weight_of corpus d links p)) <$> keys corpus).
Proof.
  intros Hnd Hl. unfold transition_model, contains, get. rewrite Hl. simpl.
  assert (true_div (1 - d) (of_nat (len corpus))
          = Ok (random_prob_of corpus d)) as ->.
  { apply true_div_of_nat. eauto using lookup_len_pos. }
  assert ((if negb (size links =? 0)%nat
           then true_div d (of_nat (size links)) else Ok 0)
          = Ok (links_prob_of d links)) as ->.
  { unfold links_prob_of. destruct (Nat.eqb_spec (size links) 0); simpl; [done|].
    apply true_div_of_nat. lia. }
  simpl. f_equal.
  rewrite <- (foldl_set_empty (weight_of corpus d links)) by done.
  apply foldl_ext_elem. intros acc p _. unfold weight_of.
  by destruct (bool_decide (p ∈ links)).
Qed.

Lemma weight_of_nonneg corpus d links p :
  0 < d → d < 1 → (0 < len corpus)%nat → 0 < weight_of corpus d links p.
Proof.
  intros Hd0 Hd1 HN. pose proof (of_nat_pos _ HN) as HNq.
  assert (0 < random_prob_of corpus d) as Hr.
  { unfold random_prob_of. apply Qlt_shift_div_l; lra. }
  assert (0 <= links_prob_of d links) as Hl.
  { unfold links_prob_of. destruct (Nat.eqb_spec (size links) 0); simpl.
    - apply Qle_refl.
    - apply Qle_shift_div_l; [apply of_nat_pos; lia | lra]. }
  unfold weight_of. destruct (bool_decide (p ∈ links)); lra.
Qed.

(** The total weight [transition_model] hands out. *)
Lemma Qsum_weights corpus d links :
  NoDup (keys corpus) → (∀ q, q ∈ links → q ∈ keys corpus) →
  (0 < len corpus)%nat →
  Qsum (weight_of corpus d links <$> keys corpus)
  == (if (size links =? 0)%nat then 0 else d) + (1 - d).
Proof.
  intros Hnd Hsub HN. unfold weight_of.
  rewrite (Qsum_two_valued (.∈ links)), length_filter_links by done.
  rewrite len_keys. unfold random_prob_of, links_prob_of.
  pose proof (of_nat_pos _ HN) as HNq.
  destruct (Nat.eqb_spec (size links) 0) as [->|Hs]; simpl.
  - field. lra.
  - assert (0 < of_nat (size links)) by (apply of_nat_pos; lia).
    field. split; lra.
Qed.

(** C3, as stated, fails: the values the code computes are doubles, and
    their sum need not be exactly 1. On the page "a" that links to the
    three other pages of a four-page graph, with damping 0.85, the values
    added up in order give 0.9999999999999999. *)
Lemma transition_model_sum_rounds :
  ∃ tm, Double.transition_model corpus_star "a" Double.damping = Ok tm
    ∧ PrimFloat.eqb (Double.total (values tm)) (Double.of_Z 1) = false
    ∧ PrimFloat.ltb (Double.total (values tm)) (Double.of_Z 1) = true.
Proof.
  eexists. split; [vm_compute; reflexivity|].
  split; vm_compute; reflexivity.
Qed.

(** C3, amended. At a page of the graph whose set of links [L] is not
    empty, [L] lying inside the graph, [transition_model] gives
    [d/|L| + (1-d)/N] to every page of [L] and [(1-d)/N] to every other page
    of the graph; in exact arithmetic these values sum to 1. *)
Theorem transition_model_linked corpus page links d :
  NoDup (keys corpus) → 0 < d → d < 1 →
  (page, links) ∈ corpus → links ≠ ∅ →
  (∀ q, q ∈ links → q ∈ keys corpus) →
  ∃ tm, transition_model corpus page d = Ok tm
    ∧ keys tm = keys corpus
    ∧ (∀ p, p ∈ links → ∃ v, lookup tm p = Some v
         ∧ v == d / of_nat (size links) + (1 - d) / of_nat (len corpus))
    ∧ (∀ p, p ∈ keys corpus → p ∉ links → ∃ v, lookup tm p = Some v
         ∧ v == (1 - d) / of_nat (len corpus))
    ∧ Qsum (values tm) == 1.
Proof.
  intros Hnd Hd0 Hd1 Hin Hlinks Hclosed.
  assert (size links ≠ O) as Hsize.
  { intros Hs%size_empty_inv. by apply Hlinks, leibniz_equiv. }
  assert ((0 < len corpus)%nat) as HN
    by eauto using lookup_len_pos, elem_lookup_Some.
  eexists. split; [apply transition_model_Ok; eauto using elem_lookup_Some|].
  rewrite keys_tabulate, values_tabulate.
  split; [done|]. split; [|split].
  - intros p Hp. eexists. split; [apply lookup_tabulate; eauto|].
    unfold weight_of, links_prob_of, random_prob_of.
    rewrite bool_decide_eq_true_2 by done.
    by destruct (Nat.eqb_spec (size links) 0).
  - intros p Hp Hnp. eexists. split; [by apply lookup_tabulate|].
    unfold weight_of, random_prob_of.
    by rewrite bool_decide_eq_false_2.
  - rewrite Qsum_weights by eauto.
    destruct (Nat.eqb_spec (size links) 0); [done | ring].
Qed.

Lemma transition_model_linked_witness :
  ∃ tm, transition_model corpus_dangling "1" DAMPING = Ok tm
    ∧ keys tm = keys corpus_dangling
    ∧ (∀ p, p ∈ ({["2"%string]} : gset string) → ∃ v, lookup tm p = Some v
         ∧ v == DAMPING / of_nat (size ({["2"%string]} : gset string))
                + (1 - DAMPING) / of_nat (len corpus_dangling))
    ∧ (∀ p, p ∈ keys corpus_dangling → p ∉ ({["2"%string]} : gset string) →
         ∃ v, lookup tm p = Some v
         ∧ v == (1 - DAMPING) / of_nat (len corpus_dangling))
    ∧ Qsum (values tm) == 1.
Proof.
  apply (transition_model_linked corpus_dangling "1" {["2"%string]} DAMPING).
  - decide_closed.
  - reflexivity.
  - reflexivity.
  - decide_closed.
  - decide_closed.
  - intros q ->%elem_of_singleton. decide_closed.
Defined.

(** C1. At a dangling page the code does not redistribute the damping mass:
    on the two-page corpus whose page "2" has no links, with damping 0.85,
    [transition_model] gives both pages 0.075, not 1/N = 0.5, and the values
    sum to 0.15, not to 1. *)
Theorem transition_model_dangling_defect :
  ∃ tm, transition_model corpus_dangling "2" DAMPING = Ok tm
    ∧ rank tm "1" == 75 # 1000
    ∧ rank tm "2" == 75 # 1000
    ∧ ¬ rank tm "1" == 1 / of_nat (len corpus_dangling)
    ∧ Qsum (values tm) == 15 # 100
    ∧ ¬ Qsum (values tm) == 1.
Proof.
  eexists. split; [vm_compute; reflexivity|].
  repeat split; vm_compute; congruence.
Qed.

(** What [transition_model] returns at a dangling page, whatever the
    corpus: the baseline for every page. *)
Lemma transition_model_dangling corpus page d :
  NoDup (keys corpus) → lookup corpus page = Some ∅ →
  transition_model corpus page d
  = Ok ((fun p => (p, random_prob_of corpus d)) <$> keys corpus).
Proof.
  intros Hnd Hl. by rewrite (transition_model_Ok _ _ _ ∅).
Qed.

(** C7. For a page that is not a key of the corpus, [transition_model]
    raises its [ValueError] (the code's error for an unknown node) and
    returns no distribution. *)
Theorem transition_model_unknown_page corpus page d :
  page ∉ keys corpus →
  transition_model corpus page d = Raise (ValueError (not_found page))
  ∧ ∀ tm, transition_model corpus page d ≠ Ok tm.
Proof.
  intros Hnin%contains_false. unfold transition_model. rewrite Hnin. simpl.
  split; [reflexivity | discriminate].
Qed.

Lemma transition_model_unknown_page_witness :
  transition_model corpus_dangling "nonexistent" DAMPING
  = Raise (ValueError (not_found "nonexistent"))
  ∧ ∀ tm, transition_model corpus_dangling "nonexistent" DAMPING ≠ Ok tm.
Proof.
  apply (transition_model_unknown_page corpus_dangling "nonexistent" DAMPING).
  decide_closed.
Defined.

(** ** The random draws *)

Lemma index_Ok {A} (l : list A) i : (i < length l)%nat → ∃ x, index l i = Ok x ∧ x ∈ l.
Proof.
  intros [x Hx]%lookup_lt_is_Some_2. exists x. unfold index. rewrite Hx.
  split; [done | by eapply list_elem_of_lookup_2].
Qed.

Lemma choice_Ok {A} (seq : list A) u :
  seq ≠ [] → 0 <= u → u < 1 → ∃ x, choice seq u = Ok x ∧ x ∈ seq.
Proof.
  intros Hne Hu0 Hu1. unfold choice.
  assert ((0 < length seq)%nat) as Hlen by (destruct seq; simpl; [done | lia]).
  destruct (Nat.eqb_spec (length seq) 0) as [|_]; [lia|].
  apply index_Ok.
  pose proof (of_nat_pos _ Hlen) as Hpos.
  assert (0 <= Qfloor (u * of_nat (length seq)))%Z as Hlo.
  { change 0%Z with (Qfloor 0). apply Qfloor_resp_le. nra. }
  assert (Qfloor (u * of_nat (length seq)) < Z.of_nat (length seq))%Z as Hhi.
  { rewrite Zlt_Qlt. eapply Qle_lt_trans; [apply Qfloor_le|].
    fold (of_nat (length seq)). nra. }
  lia.
Qed.

Lemma accumulate_from_length acc ws : length (accumulate_from acc ws) = length ws.
Proof. revert acc. induction ws; intros acc; simpl; by f_equal. Qed.

Lemma accumulate_length ws : length (accumulate ws) = length ws.
Proof. destruct ws; simpl; [done|]. by rewrite accumulate_from_length. Qed.

Lemma accumulate_from_pos acc ws :
  0 <= acc → Forall (fun w => 0 < w) ws →
  Forall (fun c => 0 < c) (accumulate_from acc ws).
Proof.
  intros Hacc Hws. revert acc Hacc.
  induction Hws as [|w ws Hw _ IH]; intros acc Hacc; simpl; [done|].
  constructor; [lra | apply IH; lra].
Qed.

Lemma accumulate_pos ws :
  Forall (fun w => 0 < w) ws → Forall (fun c => 0 < c) (accumulate ws).
Proof.
  destruct 1 as [|w ws Hw Hws]; simpl; [done|].
  constructor; [done | apply accumulate_from_pos; [lra | done]].
Qed.

Lemma bisect_le a x hi : (bisect a x hi <= hi)%nat.
Proof.
  revert a. induction hi as [|hi IH]; intros [|c a]; simpl; try lia.
  destruct (Qle_bool c x); [specialize (IH a)|]; lia.
Qed.

(** A draw over positive weights returns one member of the population. *)
Lemma choices_Ok {A} (population : list A) weights u :
  length population = length weights → weights ≠ [] →
  Forall (fun w => 0 < w) weights →
  ∃ x, choices population weights u = Ok [x] ∧ x ∈ population.
Proof.
  intros Hlen Hne Hpos. unfold choices.
  rewrite accumulate_length, Hlen, Nat.eqb_refl. simpl.
  assert ((0 < length weights)%nat) as Hn
    by (destruct weights; simpl; [done | lia]).
  destruct (index_Ok (accumulate weights) (length weights - 1))
    as (total & -> & Htotal); [rewrite accumulate_length; lia|]. simpl.
  apply accumulate_pos in Hpos.
  rewrite Forall_forall in Hpos. apply Hpos in Htotal.
  destruct (Qle_bool total 0) eqn:E; [apply Qle_bool_iff in E; lra|].
  pose proof (bisect_le (accumulate weights) (u * total) (length weights - 1)).
  destruct (index_Ok population
              (bisect (accumulate weights) (u * total) (length weights - 1)))
    as (x & -> & Hx); [lia|].
  by exists x.
Qed.











(** ** The sampler *)

Lemma values_set_counter (d : dict Z) k old v :
  lookup d k = Some old →
  Zsum (values (set d k v)) = (Zsum (values d) - old + v)%Z
  ∧ (Forall (fun c => (0 <= c)%Z) (values d) → (0 <= v)%Z →
     Forall (fun c => (0 <= c)%Z) (values (set d k v))).
Proof.
  induction d as [|[k' v'] d IH]; simpl; [done|].
  destruct (String.eqb_spec k' k) as [->|Hne].
  - intros [= ->]. simpl. split; [lia|].
    intros [_ Hd]%Forall_cons Hv. by constructor.
  - intros Hl. destruct (IH Hl) as [Hsum Hpos]. simpl. split; [lia|].
    intros [Hv' Hd]%Forall_cons Hv. constructor; auto.
Qed.

Lemma Zsum_zeros {A} (l : list A) : Zsum ((fun _ => 0%Z) <$> l) = 0%Z.
Proof. induction l as [|x l IH]; [done|]. exact IH. Qed.

Lemma walk_inv_incr corpus m pageRanks cur cur' :
  walk_inv corpus m (pageRanks, cur) → cur' ∈ keys corpus →
  ∃ c, get pageRanks cur' = Ok c
    ∧ walk_inv corpus (m + 1) (set pageRanks cur' (c + 1)%Z, cur').
Proof.
  intros (Hkeys & _ & Hpos & Hsum) Hcur'. simpl in *.
  assert (cur' ∈ keys pageRanks) as Hin by by rewrite Hkeys.
  destruct (proj2 (lookup_is_Some _ _) Hin) as [c Hc].
  exists c. split; [by apply get_Ok|].
  destruct (values_set_counter pageRanks cur' c (c + 1)%Z Hc) as [Hs Hp].
  assert (0 <= c)%Z as Hc0.
  { rewrite Forall_forall in Hpos. apply Hpos.
    apply lookup_Some_elem in Hc. apply list_elem_of_fmap. by exists (cur', c). }
  repeat split; simpl.
  - by rewrite keys_set_present.
  - done.
  - apply Hp; [done | lia].
  - lia.
Qed.

Lemma sample_step_inv corpus d rnd m st i :
  NoDup (keys corpus) → 0 < d → d < 1 →
  walk_inv corpus m st →
  ∃ st', sample_step corpus d rnd st i = Ok st' ∧ walk_inv corpus (m + 1) st'.
Proof.
  intros Hnd Hd0 Hd1 Hinv. destruct st as [pageRanks cur].
  pose proof Hinv as (_ & Hcur & _). simpl in Hcur.
  destruct (proj2 (lookup_is_Some _ _) Hcur) as [links Hlinks].
  assert ((0 < len corpus)%nat) as HN by eauto using lookup_len_pos.
  unfold sample_step. rewrite (transition_model_Ok _ _ _ links) by done.
  simpl. rewrite keys_tabulate, values_tabulate.
  destruct (choices_Ok (keys corpus) (weight_of corpus d links <$> keys corpus)
              (rnd (S i))) as (x & -> & Hx).
  - by rewrite length_fmap.
  - intros Hnil%fmap_nil_inv. rewrite <- len_keys, Hnil in HN. simpl in HN. lia.
  - apply Forall_fmap, Forall_forall. intros p _. by apply weight_of_nonneg.
  - simpl. destruct (walk_inv_incr _ _ _ _ x Hinv Hx) as (c & -> & Hinv').
    simpl. eauto.
Qed.

Lemma walk_inv_for_each corpus d rnd (steps : list nat) m st :
  NoDup (keys corpus) → 0 < d → d < 1 →
  walk_inv corpus m st →
  ∃ st', for_each steps (sample_step corpus d rnd) st = Ok st'
    ∧ walk_inv corpus (m + Z.of_nat (length steps)) st'.
Proof.
  intros Hnd Hd0 Hd1. revert m st.
  induction steps as [|i steps IH]; intros m st Hinv.
  - exists st. split; [done|]. simpl. by rewrite Z.add_0_r.
  - assert (m + Z.of_nat (length (i :: steps))
            = m + 1 + Z.of_nat (length steps))%Z as ->
      by (simpl length; lia).
    simpl.
    destruct (sample_step_inv corpus d rnd m st i) as (st1 & -> & Hinv1);
      [done..|]. simpl.
    by apply IH.
Qed.

Lemma divide_all_Ok counts n :
  n ≠ 0%Z → divide_all counts n = Ok (frequencies counts n).
Proof.
  intros Hn.
  assert (∀ c, true_div (inject_Z c) (inject_Z n)
               = Ok (inject_Z c / inject_Z n)) as Hdiv.
  { intros c. apply true_div_Ok. change 0 with (inject_Z 0).
    by rewrite inject_Z_injective. }
  induction counts as [|[page c] counts IH]; simpl; [done|].
  by rewrite Hdiv, IH.
Qed.

Lemma frequencies_facts counts n :
  (0 < n)%Z →
  keys (frequencies counts n) = keys counts
  ∧ Qsum (values (frequencies counts n))
    == inject_Z (Zsum (values counts)) / inject_Z n
  ∧ (Forall (fun c => (0 <= c)%Z) (values counts) →
     Forall (fun v => 0 <= v) (values (frequencies counts n))).
Proof.
  intros Hn.
  assert (0 < inject_Z n) as Hnq.
  { change 0 with (inject_Z 0). by rewrite <- Zlt_Qlt. }
  induction counts as [|[page c] counts (IHk & IHs & IHp)]; simpl.
  - split; [done|]. split; [|done]. simpl. field. lra.
  - split; [|split].
    + unfold keys in *. simpl. by f_equal.
    + change (inject_Z c / inject_Z n + Qsum (values (frequencies counts n))
              == inject_Z (c + Zsum (values counts)) / inject_Z n).
      rewrite IHs, inject_Z_plus. field. lra.
    + intros [Hc Hrest]%Forall_cons. constructor; [|by apply IHp].
      apply Qle_shift_div_l; [done|]. rewrite Qmult_0_l.
      change 0 with (inject_Z 0). by rewrite <- Zle_Qle.
Qed.

(** The walk succeeds and returns its counters divided by [n]. *)
Lemma sample_pagerank_counts corpus d n rnd :
  NoDup (keys corpus) → corpus ≠ [] →
  0 < d → d < 1 → (1 <= n)%Z → unit_variates rnd →
  ∃ counts : dict Z,
    sample_pagerank corpus d n rnd = Ok (frequencies counts n)
    ∧ keys (frequencies counts n) = keys corpus
    ∧ Forall (fun c => (0 <= c)%Z) (values counts)
    ∧ Zsum (values counts) = n
    ∧ Forall (fun v => 0 <= v) (values (frequencies counts n))
    ∧ Qsum (values (frequencies counts n)) == 1.
Proof.
  intros Hnd Hne Hd0 Hd1 Hn Hrnd. unfold sample_pagerank.
  destruct (choice_Ok (keys corpus) (rnd O)) as (cur & -> & Hcur).
  { intros Hnil%fmap_nil_inv. done. }
  { apply Hrnd. }
  { apply Hrnd. }
  simpl. rewrite (foldl_set_empty (fun _ => 0%Z)) by done.
  assert (walk_inv corpus 0 ((fun p => (p, 0%Z)) <$> keys corpus, cur)) as Hinv0.
  { repeat split; simpl.
    - apply keys_tabulate.
    - done.
    - rewrite values_tabulate. apply Forall_fmap, Forall_forall. by intros.
    - rewrite values_tabulate. apply Zsum_zeros. }
  destruct (walk_inv_incr _ _ _ _ cur Hinv0 Hcur) as (c & -> & Hinv1). simpl.
  destruct (walk_inv_for_each corpus d rnd (seq 0 (Z.to_nat (n - 1))) _ _
              Hnd Hd0 Hd1 Hinv1) as ([counts cur'] & -> & Hinv).
  simpl. rewrite length_seq in Hinv.
  destruct Hinv as (Hkeys & _ & Hpos & Hsum). simpl in *.
  assert (Zsum (values counts) = n) as Hsum' by lia.
  destruct (frequencies_facts counts n) as (Hk & Hs & Hp); [lia|].
  exists counts. split; [apply divide_all_Ok; lia|].
  split; [congruence|]. split; [done|]. split; [done|]. split; [auto|].
  rewrite Hs, Hsum'. field.
  change 0 with (inject_Z 0). rewrite inject_Z_injective. lia.
Qed.

(** C6, as stated, fails: the returned values are doubles, and their sum
    need not be exactly 1. On three pages without links, with damping 0.85
    and 10 samples that visit the pages 6, 3 and 1 times, the code returns
    the doubles 0.6, 0.3 and 0.1, which added up in order give
    0.9999999999999999. *)
Lemma sample_pagerank_sum_rounds :
  ∃ ranks,
    Double.sample_pagerank corpus_isolated Double.damping 10 variates_631
    = Ok ranks
    ∧ values ranks
      = [PrimFloat.div (Double.of_Z 6) (Double.of_Z 10);
         PrimFloat.div (Double.of_Z 3) (Double.of_Z 10);
         PrimFloat.div (Double.of_Z 1) (Double.of_Z 10)]
    ∧ PrimFloat.eqb (Double.total (values ranks)) (Double.of_Z 1) = false
    ∧ PrimFloat.ltb (Double.total (values ranks)) (Double.of_Z 1) = true.
Proof.
  eexists. split; [vm_compute; reflexivity|].
  repeat split; vm_compute; reflexivity.
Qed.

(** C6, amended. For a non-empty graph, a damping factor in (0,1) and
    [n >= 1] samples, [sample_pagerank] returns, for every page of the
    graph, a non-negative integer counter divided by [n]; the counters
    total exactly [n], so that in exact arithmetic the returned values sum
    to 1. *)
Theorem sample_pagerank_distribution corpus d n rnd :
  NoDup (keys corpus) → corpus ≠ [] →
  0 < d → d < 1 → (1 <= n)%Z → unit_variates rnd →
  ∃ counts : dict Z,
    sample_pagerank corpus d n rnd = Ok (frequencies counts n)
    ∧ keys (frequencies counts n) = keys corpus
    ∧ Forall (fun c => (0 <= c)%Z) (values counts)
    ∧ Zsum (values counts) = n
    ∧ Forall (fun v => 0 <= v) (values (frequencies counts n))
    ∧ Qsum (values (frequencies counts n)) == 1.
Proof.
  apply sample_pagerank_counts.
Qed.

Lemma sample_pagerank_distribution_witness :
  ∃ counts : dict Z,
    sample_pagerank corpus_abc DAMPING 10 (fun k => Z.of_nat (k mod 4) # 4)
    = Ok (frequencies counts 10)
    ∧ keys (frequencies counts 10) = keys corpus_abc
    ∧ Forall (fun c => (0 <= c)%Z) (values counts)
    ∧ Zsum (values counts) = 10%Z
    ∧ Forall (fun v => 0 <= v) (values (frequencies counts 10))
    ∧ Qsum (values (frequencies counts 10)) == 1.
Proof.
  apply (sample_pagerank_distribution corpus_abc DAMPING 10).
  - decide_closed.
  - discriminate.
  - reflexivity.
  - reflexivity.
  - lia.
  - intros k. unfold Qle, Qlt. simpl.
    pose proof (Nat.mod_upper_bound k 4). lia.
Defined.

(** ** The iterative solver *)

Lemma for_each_app {A S} (xs ys : list A) (body : S → A → result S) s :
  for_each (xs ++ ys) body s = (s' ← for_each xs body s; for_each ys body s').
Proof.
  revert s. induction xs as [|x xs IH]; intros s; simpl; [done|].
  destruct (body s x); simpl; [apply IH | done].
Qed.

Lemma for_each_cons {A S} x (xs : list A) (body : S → A → result S) s :
  for_each (x :: xs) body s = (s' ← body s x; for_each xs body s').
Proof. done. Qed.

Lemma rank_lookup pr q v : lookup pr q = Some v → rank pr q = v.
Proof. unfold rank. by intros ->. Qed.

Lemma get_rank (pr : dict Q) q : q ∈ keys pr → get pr q = Ok (rank pr q).
Proof.
  intros [v Hv]%lookup_is_Some. unfold get, rank. by rewrite Hv.
Qed.

Lemma initial_ranks_Ok corpus :
  NoDup (keys corpus) →
  initial_ranks corpus
  = Ok ((fun p => (p, 1 / of_nat (len corpus))) <$> keys corpus).
Proof.
  intros Hnd. unfold initial_ranks.
  rewrite <- (foldl_set_empty (fun _ => 1 / of_nat (len corpus))) by done.
  destruct (decide (len corpus = O)) as [Hz|Hnz].
  { destruct corpus; [done | simpl in Hz; lia]. }
  rewrite true_div_of_nat by lia.
  generalize (@nil (string * Q)). clear Hnd.
  induction (keys corpus) as [|p ks IH]; intros acc; simpl; [done | apply IH].
Qed.

(** One turn of the inner loop adds the share of [p] when [p] links to
    [page], a page without links counting as linking to every page. *)
Lemma summation_step_Ok corpus pr page acc p links :
  keys pr = keys corpus → page ∈ keys corpus → lookup corpus p = Some links →
  ∃ v, summation_step corpus pr page acc p = Ok v
    ∧ v == acc + (if links_to page (p, links)
                  then contribution corpus pr (p, links) else 0).
Proof.
  intros Hkeys Hpage Hp.
  assert (p ∈ keys pr) as Hpr.
  { rewrite Hkeys. apply lookup_is_Some. eauto. }
  assert ((0 < len corpus)%nat) as HN by eauto using lookup_len_pos.
  unfold summation_step. rewrite (get_Ok _ _ _ Hp). simpl.
  unfold links_to, contribution, out_degree. simpl.
  destruct (Nat.eqb_spec (size links) 0) as [Hz|Hnz]; simpl.
  - rewrite (proj2 (contains_true corpus page) Hpage).
    rewrite get_rank by done. simpl.
    rewrite true_div_of_nat by done. simpl.
    eexists. split; [done | reflexivity].
  - destruct (bool_decide (page ∈ links)); simpl.
    + rewrite get_rank by done. simpl.
      rewrite true_div_of_nat by lia. simpl.
      eexists. split; [done | reflexivity].
    + eexists. split; [done | ring].
Qed.

(** The inner loop adds up, for the entries that link to [page], the share
    each passes on. *)
Lemma summation_for_each corpus pr page (entries : list (string * gset string)) acc :
  keys pr = keys corpus → page ∈ keys corpus →
  (∀ e, e ∈ entries → lookup corpus e.1 = Some e.2) →
  ∃ v, for_each entries.*1 (summation_step corpus pr page) acc = Ok v
    ∧ v == acc + Qsum (contribution corpus pr <$> List.filter (links_to page) entries).
Proof.
  intros Hkeys Hpage. revert acc.
  induction entries as [|[p links] entries IH]; intros acc Hentries.
  - exists acc. split; [done | simpl; ring].
  - destruct (summation_step_Ok corpus pr page acc p links) as (v1 & Hv1 & Hacc);
      [done | done | apply (Hentries (p, links)); left |].
    destruct (IH v1) as (v & Hv & Hsum).
    { intros e He. apply Hentries. by right. }
    exists v. split.
    + change (for_each (p :: entries.*1) (summation_step corpus pr page) acc = Ok v).
      simpl. rewrite Hv1. exact Hv.
    + rewrite Hsum, Hacc.
      change (List.filter (links_to page) ((p, links) :: entries))
        with (if links_to page (p, links)
              then (p, links) :: List.filter (links_to page) entries
              else List.filter (links_to page) entries).
      destruct (links_to page (p, links)); simpl;
        [symmetry; apply Qplus_assoc | ring].
Qed.

Lemma keys_entries {V} (d : dict V) : keys d = d.*1.
Proof. done. Qed.

(** The rank computed for a page is the value of the rank equation on the
    dictionary it is computed from. *)
Lemma new_rank_Ok corpus d pr page :
  NoDup (keys corpus) → keys pr = keys corpus → page ∈ keys corpus →
  ∃ v, new_rank corpus d pr page = Ok v ∧ v == rank_equation corpus d pr page.
Proof.
  intros Hnd Hkeys Hpage. unfold new_rank.
  assert ((0 < len corpus)%nat) as HN.
  { apply lookup_is_Some in Hpage as [? ?]. eauto using lookup_len_pos. }
  rewrite true_div_of_nat by done. simpl.
  destruct (summation_for_each corpus pr page corpus 0 Hkeys Hpage)
    as (s & Hs & Hsv).
  { intros [p links] He. by apply elem_lookup_Some. }
  rewrite keys_entries, Hs. simpl.
  eexists. split; [done|]. unfold rank_equation. rewrite Hsv. ring.
Qed.

Lemma update_step_Ok corpus d pr cc page :
  NoDup (keys corpus) → keys pr = keys corpus → page ∈ keys corpus →
  ∃ v, new_rank corpus d pr page = Ok v
    ∧ v == rank_equation corpus d pr page
    ∧ update_step corpus d (pr, cc) page
      = Ok (set pr page v,
            if within_tolerance v (rank pr page) then S cc else cc).
Proof.
  intros Hnd Hkeys Hpage.
  destruct (new_rank_Ok corpus d pr page) as (v & Hv & Heq); [done..|].
  exists v. split; [done|]. split; [done|].
  unfold update_step. rewrite Hv. simpl.
  rewrite get_rank by by rewrite Hkeys. simpl.
  unfold within_tolerance.
  destruct (Qle_bool v (rank pr page + tolerance)); simpl; [|done].
  by destruct (Qle_bool (rank pr page - tolerance) v).
Qed.

Lemma rank_set_eq pr q v : rank (set pr q v) q = v.
Proof. unfold rank. by rewrite lookup_set_eq. Qed.

Lemma rank_set_ne pr q q' v : q ≠ q' → rank (set pr q v) q' = rank pr q'.
Proof. intros Hne. unfold rank. by rewrite lookup_set_ne. Qed.

Lemma rank_ext pr pr' q : lookup pr' q = lookup pr q → rank pr' q = rank pr q.
Proof. unfold rank. by intros ->. Qed.

(** A run of the update loop over distinct pages [ks]: it succeeds, keeps
    the keys, leaves the other pages alone, and raises the counter by the
    number of pages of [ks] whose new rank is within the tolerance of the
    rank they had when the run started. *)
Lemma update_pass corpus d (ks : list string) pr cc :
  NoDup (keys corpus) → keys pr = keys corpus →
  NoDup ks → (∀ q, q ∈ ks → q ∈ keys corpus) →
  ∃ pr' cc', for_each ks (update_step corpus d) (pr, cc) = Ok (pr', cc')
    ∧ keys pr' = keys corpus
    ∧ (∀ q, q ∉ ks → lookup pr' q = lookup pr q)
    ∧ (cc <= cc' <= cc + length ks)%nat
    ∧ (cc' = (cc + length ks)%nat
       ↔ ∀ page, page ∈ ks →
           within_tolerance (rank pr' page) (rank pr page) = true).
Proof.
  intros Hnd. revert pr cc.
  induction ks as [|page ks IH]; intros pr cc Hkeys Hks Hsub.
  - exists pr, cc. simpl. repeat split; try done; try lia.
    intros _ page Hpage. by apply elem_of_nil in Hpage.
  - apply NoDup_cons in Hks as [Hpage Hks].
    destruct (update_step_Ok corpus d pr cc page) as (v & _ & _ & Hstep);
      [done | done | apply Hsub; left |].
    remember (set pr page v) as pr1 eqn:Hpr1.
    remember (if within_tolerance v (rank pr page) then S cc else cc)
      as cc1 eqn:Hcc1'.
    assert (keys pr1 = keys corpus) as Hkeys1.
    { subst pr1. rewrite keys_set_present; [done|].
      rewrite Hkeys. apply Hsub. left. }
    destruct (IH pr1 cc1 Hkeys1 Hks) as (pr' & cc' & Hrun & Hk' & Hout & Hcc & Hiff).
    { intros q Hq. apply Hsub. by right. }
    assert (rank pr' page = v) as Hv.
    { rewrite (rank_ext pr1 pr') by auto. subst pr1. apply rank_set_eq. }
    assert (∀ q, q ∈ ks → rank pr1 q = rank pr q) as Hsame.
    { intros q Hq. subst pr1. apply rank_set_ne. by intros ->. }
    assert (cc <= cc1 <= S cc)%nat as Hcc1.
    { subst cc1. destruct (within_tolerance v (rank pr page)); lia. }
    exists pr', cc'. split; [|split; [done|split; [|split]]].
    + rewrite for_each_cons, Hstep. exact Hrun.
    + intros q [Hne Hq]%not_elem_of_cons.
      rewrite Hout by done. subst pr1. by rewrite lookup_set_ne.
    + simpl. lia.
    + simpl. split.
      * intros Heq q [->|Hq]%elem_of_cons.
        -- rewrite Hv.
           destruct (within_tolerance v (rank pr page)); [done | lia].
        -- rewrite <- Hsame by done. apply Hiff; [lia | done].
      * intros Hall.
        assert (cc' = (cc1 + length ks)%nat) as ->.
        { apply Hiff. intros q Hq. rewrite Hsame by done.
          apply Hall. by right. }
        rewrite <- Hv, Hall in Hcc1' by left. lia.
Qed.

(** The pass seen from one page: when its turn comes the dictionary holds
    the new ranks of the pages before it and the old ranks of the others. *)
Lemma update_pass_split corpus d pre page post pr cc :
  NoDup (keys corpus) → keys pr = keys corpus →
  keys corpus = pre ++ page :: post →
  ∃ mid ccm pr' cc' v,
    for_each pre (update_step corpus d) (pr, cc) = Ok (mid, ccm)
    ∧ for_each (keys corpus) (update_step corpus d) (pr, cc) = Ok (pr', cc')
    ∧ keys mid = keys corpus
    ∧ (∀ q, q ∈ pre → lookup mid q = lookup pr' q)
    ∧ (∀ q, q ∉ pre → lookup mid q = lookup pr q)
    ∧ new_rank corpus d mid page = Ok v
    ∧ v == rank_equation corpus d mid page
    ∧ lookup pr' page = Some v.
Proof.
  intros Hnd Hkeys Hsplit.
  pose proof Hnd as Hnd'. rewrite Hsplit in Hnd'.
  apply NoDup_app in Hnd' as (Hpre & Hdisj & Hrest).
  pose proof Hrest as [Hpage Hpost]%NoDup_cons.
  assert (∀ q, q ∈ pre → q ∈ keys corpus) as Hsub_pre.
  { intros q Hq. rewrite Hsplit. apply elem_of_app. by left. }
  assert (∀ q, q ∈ page :: post → q ∈ keys corpus) as Hsub_rest.
  { intros q Hq. rewrite Hsplit. apply elem_of_app. by right. }
  destruct (update_pass corpus d pre pr cc Hnd Hkeys Hpre Hsub_pre)
    as (mid & ccm & Hrun1 & Hkm & Hout1 & _ & _).
  destruct (update_step_Ok corpus d mid ccm page) as (v & Hv & Heq & Hstep);
    [done | done | apply Hsub_rest; left |].
  remember (set mid page v) as pr1 eqn:Hpr1.
  assert (keys pr1 = keys corpus) as Hk1.
  { subst pr1. rewrite keys_set_present; [done|].
    rewrite Hkm. apply Hsub_rest. left. }
  destruct (update_pass corpus d post pr1
              (if within_tolerance v (rank mid page) then S ccm else ccm)
              Hnd Hk1 Hpost)
    as (pr' & cc' & Hrun2 & _ & Hout2 & _ & _).
  { intros q Hq. apply Hsub_rest. by right. }
  exists mid, ccm, pr', cc', v.
  split; [done|]. split; [|split; [done|split; [|split; [done|]]]].
  - rewrite Hsplit, for_each_app, Hrun1.
    change (for_each (page :: post) (update_step corpus d) (mid, ccm)
            = Ok (pr', cc')).
    rewrite for_each_cons, Hstep. exact Hrun2.
  - intros q Hq. rewrite Hout2.
    + subst pr1. rewrite lookup_set_ne; [done|].
      intros <-. apply (Hdisj page Hq). left.
    + intros Hq'. apply (Hdisj q Hq). by right.
  - split; [done|]. split; [done|].
    rewrite Hout2 by done. subst pr1. apply lookup_set_eq.
Qed.

Lemma within_tolerance_abs newRank old :
  within_tolerance newRank old = true ↔ Qabs (newRank - old) <= 1 # 1000.
Proof.
  unfold within_tolerance, tolerance.
  rewrite andb_true_iff, !Qle_bool_iff, Qabs_Qle_condition.
  split; intros [H1 H2]; split; lra.
Qed.

(** One turn of the [while] loop from a loop-head state: the flag is raised
    exactly when every page passed the test in this pass, and the counter is
    zero again otherwise. *)
Lemma loop_body_spec corpus d st :
  NoDup (keys corpus) → loop_head corpus st →
  ∃ st', loop_body corpus d st = Ok st'
    ∧ keys (st_pageRanks st') = keys corpus
    ∧ (st_converged st' = true
       ↔ ∀ page, page ∈ keys corpus →
           within_tolerance (rank (st_pageRanks st') page)
             (rank (st_pageRanks st) page) = true)
    ∧ (st_converged st' = true → st_converged_count st' = len corpus)
    ∧ (st_converged st' = false → st_converged_count st' = O).
Proof.
  intros Hnd (Hkeys & Hflag & Hcount).
  destruct (update_pass corpus d (keys corpus) (st_pageRanks st) O)
    as (pr' & cc' & Hrun & Hk' & _ & _ & Hiff); [done..|].
  unfold loop_body. rewrite Hcount, Hrun, Hflag. simpl.
  rewrite len_keys in Hiff. simpl in Hiff.
  destruct (Nat.eqb_spec cc' (len corpus)) as [Heq|Hne];
    eexists; (split; [done|]); simpl; (split; [done|]).
  - split; [|done]. split; [intros _; by apply Hiff | done].
  - split; [|done]. split; [done | intros Hall; by apply Hiff in Hall].
Qed.

Lemma while_converged fuel corpus d st :
  st_converged st = true → while_not_converged fuel corpus d st = Some (Ok st).
Proof. intros H. destruct fuel; simpl; by rewrite H. Qed.

Lemma while_step fuel corpus d st st' :
  st_converged st = false → loop_body corpus d st = Ok st' →
  while_not_converged (S fuel) corpus d st
  = while_not_converged fuel corpus d st'.
Proof. intros Hflag Hbody. simpl. by rewrite Hflag, Hbody. Qed.

(** Whatever the loop returns was produced by a pass that raised the flag. *)
Lemma while_returns fuel corpus d st r :
  NoDup (keys corpus) → loop_head corpus st →
  while_not_converged fuel corpus d st = Some r →
  ∃ prev st', loop_head corpus prev
    ∧ loop_body corpus d prev = Ok st'
    ∧ st_converged st' = true
    ∧ r = Ok st'.
Proof.
  intros Hnd. revert st.
  induction fuel as [|fuel IH]; intros st Hhead Hrun.
  - destruct Hhead as (_ & Hflag & _). simpl in Hrun. by rewrite Hflag in Hrun.
  - destruct (loop_body_spec corpus d st Hnd Hhead)
      as (st1 & Hbody & Hk1 & _ & _ & Hreset).
    pose proof Hhead as (_ & Hflag & _).
    rewrite (while_step _ _ _ _ st1) in Hrun by done.
    destruct (st_converged st1) eqn:Hflag1.
    + rewrite while_converged in Hrun by done.
      injection Hrun as <-. by exists st, st1.
    + apply (IH st1); [|done]. repeat split; auto.
Qed.

Lemma initial_loop_head corpus :
  NoDup (keys corpus) →
  ∃ r0, initial_ranks corpus = Ok r0
    ∧ loop_head corpus (LoopState r0 false O)
    ∧ ∀ p, p ∈ keys corpus → rank r0 p = 1 / of_nat (len corpus).
Proof.
  intros Hnd. eexists. split; [by apply initial_ranks_Ok|]. split.
  - repeat split. simpl. apply keys_tabulate.
  - intros p Hp. apply rank_lookup.
    by apply (lookup_tabulate (fun _ => 1 / of_nat (len corpus))).
Qed.

(** C5. [iterate_pagerank] returns only out of a pass in which every page's
    new rank is within 0.001 of the rank the page had when it was compared;
    a pass in which some page fails the test leaves the counter at zero, not
    raised, and the loop runs another pass over all the pages. *)
Theorem convergence_test corpus d :
  NoDup (keys corpus) →
  (∃ r0, initial_ranks corpus = Ok r0 ∧ loop_head corpus (LoopState r0 false O))
  ∧ (∀ fuel r, iterate_pagerank fuel corpus d = Some r →
     ∃ prev ranks, r = Ok ranks
       ∧ loop_head corpus prev
       ∧ loop_body corpus d prev = Ok (LoopState ranks true (len corpus))
       ∧ ∀ page, page ∈ keys corpus →
           Qabs (rank ranks page - rank (st_pageRanks prev) page) <= 1 # 1000)
  ∧ (∀ st, loop_head corpus st →
     ∃ st', loop_body corpus d st = Ok st'
       ∧ (st_converged st' = true
          ↔ ∀ page, page ∈ keys corpus →
              Qabs (rank (st_pageRanks st') page - rank (st_pageRanks st) page)
              <= 1 # 1000)
       ∧ (st_converged st' = false →
          st_converged_count st' = O
          ∧ loop_head corpus st'
          ∧ ∀ fuel, while_not_converged (S fuel) corpus d st
                    = while_not_converged fuel corpus d st')).
Proof.
  intros Hnd. split; [|split].
  - destruct (initial_loop_head corpus Hnd) as (r0 & Hr0 & Hhead & _). eauto.
  - intros fuel r Hrun. unfold iterate_pagerank in Hrun.
    destruct (initial_loop_head corpus Hnd) as (r0 & Hr0 & Hhead & _).
    rewrite Hr0 in Hrun.
    destruct (while_not_converged fuel corpus d (LoopState r0 false 0))
      as [r'|] eqn:Hwhile; [|done].
    destruct (while_returns _ _ _ _ _ Hnd Hhead Hwhile)
      as (prev & st' & Hprev & Hbody & Hflag & ->).
    injection Hrun as <-.
    destruct (loop_body_spec corpus d prev Hnd Hprev)
      as (st1 & Hbody1 & _ & Hiff & Hcount & _).
    rewrite Hbody in Hbody1. injection Hbody1 as <-.
    exists prev, (st_pageRanks st'). split; [done|]. split; [done|]. split.
    + rewrite Hbody. f_equal. destruct st' as [pr' fl cnt]. simpl in *.
      by rewrite Hflag, (Hcount Hflag).
    + intros page Hpage. apply within_tolerance_abs. by apply Hiff.
  - intros st Hhead.
    destruct (loop_body_spec corpus d st Hnd Hhead)
      as (st' & Hbody & Hk' & Hiff & _ & Hreset).
    exists st'. split; [done|]. split.
    + rewrite Hiff. by setoid_rewrite within_tolerance_abs.
    + intros Hflag. split; [auto|]. split; [repeat split; auto|].
      intros fuel. apply while_step; [apply Hhead | done].
Qed.

Lemma convergence_test_witness :
  (∃ r0, initial_ranks corpus_abc = Ok r0
     ∧ loop_head corpus_abc (LoopState r0 false O))
  ∧ (∀ fuel r, iterate_pagerank fuel corpus_abc DAMPING = Some r →
     ∃ prev ranks, r = Ok ranks
       ∧ loop_head corpus_abc prev
       ∧ loop_body corpus_abc DAMPING prev
         = Ok (LoopState ranks true (len corpus_abc))
       ∧ ∀ page, page ∈ keys corpus_abc →
           Qabs (rank ranks page - rank (st_pageRanks prev) page) <= 1 # 1000)
  ∧ (∀ st, loop_head corpus_abc st →
     ∃ st', loop_body corpus_abc DAMPING st = Ok st'
       ∧ (st_converged st' = true
          ↔ ∀ page, page ∈ keys corpus_abc →
              Qabs (rank (st_pageRanks st') page - rank (st_pageRanks st) page)
              <= 1 # 1000)
       ∧ (st_converged st' = false →
          st_converged_count st' = O
          ∧ loop_head corpus_abc st'
          ∧ ∀ fuel, while_not_converged (S fuel) corpus_abc DAMPING st
                    = while_not_converged fuel corpus_abc DAMPING st')).
Proof.
  apply (convergence_test corpus_abc DAMPING).
  decide_closed.
Defined.



(** C2, as stated, fails. On the three pages A -> B, B -> A, C -> A with
    damping 0.85 the first pass gives B a rank that is not the value of the
    rank equation on the ranks the pass started from, and listing the same
    graph with B before A changes the rank returned for B. *)
Lemma iterate_pagerank_order_dependent :
  (∃ r0 r1 cc,
     initial_ranks corpus_abc = Ok r0
     ∧ for_each (keys corpus_abc) (update_step corpus_abc DAMPING) (r0, O)
       = Ok (r1, cc)
     ∧ ¬ rank r1 "B" == rank_equation corpus_abc DAMPING r0 "B")
  ∧ (∃ ranks ranks',
       iterate_pagerank 100 corpus_abc DAMPING = Some (Ok ranks)
       ∧ iterate_pagerank 100 corpus_bac DAMPING = Some (Ok ranks')
       ∧ corpus_bac ≡ₚ corpus_abc
       ∧ ¬ rank ranks "B" == rank ranks' "B").
Proof.
  split.
  - do 3 eexists. split; [vm_compute; reflexivity|].
    split; [vm_compute; reflexivity|].
    apply Qeq_bool_neq. vm_compute. reflexivity.
  - do 2 eexists. split; [vm_compute; reflexivity|].
    split; [vm_compute; reflexivity|]. split; [apply perm_swap|].
    apply Qeq_bool_neq. vm_compute. reflexivity.
Qed.

(** C2, amended. The pass updates the dictionary in place, in key order:
    the new rank of a page [p] is the value of the rank equation on a
    dictionary that holds the new ranks of the pages evaluated before [p] in
    this pass and the previous ranks of [p] and of the pages after it. *)
Theorem update_pass_in_place corpus d pr cc pre p post :
  NoDup (keys corpus) → keys pr = keys corpus →
  keys corpus = pre ++ p :: post →
  ∃ pr' cc' mid,
    for_each (keys corpus) (update_step corpus d) (pr, cc) = Ok (pr', cc')
    ∧ (∀ q, q ∈ pre → rank mid q = rank pr' q)
    ∧ (∀ q, q ∉ pre → rank mid q = rank pr q)
    ∧ new_rank corpus d mid p = Ok (rank pr' p)
    ∧ rank pr' p == rank_equation corpus d mid p.
Proof.
  intros Hnd Hkeys Hsplit.
  destruct (update_pass_split corpus d pre p post pr cc Hnd Hkeys Hsplit)
    as (mid & ccm & pr' & cc' & v & _ & Hrun & _ & Hnew & Hold & Hv & Heq & Hl).
  exists pr', cc', mid. rewrite (rank_lookup _ _ _ Hl).
  repeat split; auto using rank_ext.
Qed.

Lemma update_pass_in_place_witness :
  ∃ pr' cc' mid,
    for_each (keys corpus_abc) (update_step corpus_abc DAMPING)
      ((fun q => (q, 1 # 3)) <$> keys corpus_abc, O) = Ok (pr', cc')
    ∧ (∀ q, q ∈ ["A"%string] → rank mid q = rank pr' q)
    ∧ (∀ q, q ∉ ["A"%string] →
         rank mid q = rank ((fun q => (q, 1 # 3)) <$> keys corpus_abc) q)
    ∧ new_rank corpus_abc DAMPING mid "B" = Ok (rank pr' "B")
    ∧ rank pr' "B" == rank_equation corpus_abc DAMPING mid "B".
Proof.
  apply (update_pass_in_place corpus_abc DAMPING
           ((fun q => (q, 1 # 3)) <$> keys corpus_abc) O
           ["A"%string] "B" ["C"%string]).
  - decide_closed.
  - reflexivity.
  - reflexivity.
Defined.

(** C8, as stated, fails: on the empty graph [iterate_pagerank] raises
    nothing and returns the empty distribution. *)
Lemma iterate_pagerank_empty_returns :
  iterate_pagerank 1 [] DAMPING = Some (Ok [])
  ∧ ¬ ∃ e, iterate_pagerank 1 [] DAMPING = Some (Raise e).
Proof. split; [reflexivity | by intros [e He]]. Qed.

(** C8, amended. On a graph without nodes [sample_pagerank] fails at its
    first draw, with the [IndexError] of [random.choice] on an empty list,
    before any distribution exists; [iterate_pagerank] runs one pass over no
    page and returns the empty distribution. *)
Theorem empty_graph_behaviour d n rnd fuel :
  sample_pagerank [] d n rnd = Raise IndexError
  ∧ (∀ ranks, sample_pagerank [] d n rnd ≠ Ok ranks)
  ∧ iterate_pagerank (S fuel) [] d = Some (Ok []).
Proof.
  split; [reflexivity|]. split; [discriminate|].
  unfold iterate_pagerank. simpl. by destruct fuel.
Qed.

(** C9. On the graph of one page without links, [sample_pagerank], for
    every [n >= 1], and [iterate_pagerank] both return the distribution that
    gives that page rank 1; neither raises. *)
Theorem single_dangling_node page d n rnd fuel :
  0 < d → d < 1 → (1 <= n)%Z → unit_variates rnd →
  (∃ v, sample_pagerank [(page, ∅)] d n rnd = Ok [(page, v)] ∧ v == 1)
  ∧ (∃ v, iterate_pagerank (S fuel) [(page, ∅)] d = Some (Ok [(page, v)])
       ∧ v == 1).
Proof.
  intros Hd0 Hd1 Hn Hrnd.
  set (corpus := [(page, ∅)] : corpus_t).
  assert (NoDup (keys corpus)) as Hnd by apply NoDup_singleton.
  split.
  - destruct (sample_pagerank_counts corpus d n rnd)
      as (counts & Hrun & Hkeys & _ & Hsum & _ & _); [done..|].
    destruct counts as [|[page' c] [|? ?]]; try done.
    injection Hkeys as ->. simpl in Hsum.
    eexists. split; [exact Hrun|]. simpl.
    replace c with n by lia. field.
    change 0 with (inject_Z 0). rewrite inject_Z_injective. lia.
  - destruct (initial_loop_head corpus Hnd) as (r0 & Hr0 & Hhead & Hrank).
    destruct (loop_body_spec corpus d _ Hnd Hhead)
      as (st' & Hbody & Hk' & Hiff & _ & _).
    destruct (update_pass_split corpus d [] page [] r0 O Hnd)
      as (mid & ccm & pr' & cc' & v & Hmid & Hrun & _ & _ & _ & _ & Hv & Hl);
      [apply Hhead | done |].
    injection Hmid as <- <-.
    assert (v == 1) as Hv1.
    { rewrite Hv. unfold rank_equation.
      change (List.filter (links_to page) corpus) with corpus.
      change (contribution corpus r0 <$> corpus)
        with [rank r0 page / of_nat 1].
      rewrite Hrank by left. change (len corpus) with 1%nat.
      unfold of_nat. simpl. field. }
    assert (st_pageRanks st' = pr') as Hpr'.
    { unfold loop_body in Hbody. simpl in Hbody, Hrun. rewrite Hrun in Hbody.
      simpl in Hbody. by destruct (cc' =? 1)%nat; injection Hbody as <-. }
    subst pr'.
    assert (st_converged st' = true) as Hflag.
    { apply Hiff. intros q ->%list_elem_of_singleton. simpl.
      rewrite (rank_lookup _ _ _ Hl), (Hrank page) by left.
      apply within_tolerance_abs. rewrite Hv1.
      unfold of_nat. simpl. by vm_compute. }
    exists v. split; [|done].
    unfold iterate_pagerank. rewrite Hr0.
    rewrite (while_step _ _ _ _ st') by done.
    rewrite while_converged by done.
    do 2 f_equal.
    destruct (st_pageRanks st') as [|[q w] [|? ?]]; try done.
    injection Hk' as ->. simpl in Hl.
    rewrite String.eqb_refl in Hl. by injection Hl as ->.
Qed.

Lemma single_dangling_node_witness :
  (∃ v, sample_pagerank corpus_solo DAMPING 10
          (fun k => Z.of_nat (k mod 4) # 4) = Ok [("1"%string, v)] ∧ v == 1)
  ∧ (∃ v, iterate_pagerank 1 corpus_solo DAMPING
          = Some (Ok [("1"%string, v)]) ∧ v == 1).
Proof.
  apply (single_dangling_node "1" DAMPING 10
           (fun k => Z.of_nat (k mod 4) # 4) O).
  - reflexivity.
  - reflexivity.
  - lia.
  - intros k. unfold Qle, Qlt. simpl.
    pose proof (Nat.mod_upper_bound k 4). lia.
Defined.


(** * Further properties of the code *)

(** ** The transition model, beyond the claims *)

(** X1. On a page of the corpus [transition_model] never raises, whatever the
    damping factor and whatever the links of the page: the only exception it
    can raise is its own [ValueError] for an unknown page. The dictionary it
    returns lists the pages of the corpus in the order of the corpus. *)
Theorem transition_model_known_page corpus page d :
  NoDup (keys corpus) → page ∈ keys corpus →
  ∃ tm, transition_model corpus page d = Ok tm
    ∧ keys tm = keys corpus
    ∧ len tm = len corpus.
Proof.
  intros Hnd [links Hl]%lookup_is_Some.
  eexists. split; [by apply transition_model_Ok|].
  rewrite <- !len_keys, keys_tabulate. done.
Qed.

Lemma transition_model_known_page_witness :
  ∃ tm, transition_model corpus_dangling "2" 2 = Ok tm
    ∧ keys tm = keys corpus_dangling
    ∧ len tm = len corpus_dangling.
Proof.
  apply (transition_model_known_page corpus_dangling "2" 2).
  - decide_closed.
  - decide_closed.
Defined.

Lemma rank_tabulate (f : string → Q) (ks : list string) p :
  p ∈ ks → rank ((fun q => (q, f q)) <$> ks) p = f p.
Proof. intros Hp. apply rank_lookup. by apply lookup_tabulate. Qed.

(** X2. For a damping factor in (0,1) every page of the corpus gets a
    positive weight, every linked page gets at least as much as every page
    that is not linked, and two pages on the same side get the same. *)
Theorem transition_model_prefers_links corpus page links d :
  NoDup (keys corpus) → 0 < d → d < 1 → (page, links) ∈ corpus →
  ∃ tm, transition_model corpus page d = Ok tm
    ∧ (∀ p, p ∈ keys corpus → 0 < rank tm p)
    ∧ (∀ p q, p ∈ keys corpus → q ∈ keys corpus →
         p ∈ links → q ∉ links → rank tm q <= rank tm p)
    ∧ (∀ p q, p ∈ keys corpus → q ∈ keys corpus →
         (p ∈ links ↔ q ∈ links) → rank tm p == rank tm q).
Proof.
  intros Hnd Hd0 Hd1 Hin.
  pose proof (elem_lookup_Some _ _ _ Hnd Hin) as Hl.
  assert ((0 < len corpus)%nat) as HN by eauto using lookup_len_pos.
  eexists. split; [by apply transition_model_Ok|]. split; [|split].
  - intros p Hp. rewrite rank_tabulate by done. by apply weight_of_nonneg.
  - intros p q Hp Hq Hpl Hql. rewrite !rank_tabulate by done.
    unfold weight_of.
    rewrite (bool_decide_eq_true_2 (p ∈ links)),
      (bool_decide_eq_false_2 (q ∈ links)) by done.
    assert (0 < links_prob_of d links); [|lra].
    unfold links_prob_of.
    destruct (Nat.eqb_spec (size links) 0) as [Hz|Hnz]; simpl.
    + apply size_empty_inv in Hz. set_solver.
    + apply Qlt_shift_div_l; [apply of_nat_pos; lia | lra].
  - intros p q Hp Hq Hiff. rewrite !rank_tabulate by done.
    unfold weight_of.
    destruct (decide (p ∈ links)) as [Hpl|Hpl].
    + by rewrite !bool_decide_eq_true_2 by tauto.
    + by rewrite !bool_decide_eq_false_2 by tauto.
Qed.

Lemma transition_model_prefers_links_witness :
  ∃ tm, transition_model corpus_abc "A" DAMPING = Ok tm
    ∧ (∀ p, p ∈ keys corpus_abc → 0 < rank tm p)
    ∧ (∀ p q, p ∈ keys corpus_abc → q ∈ keys corpus_abc →
         p ∈ ({["B"%string]} : gset string) →
         q ∉ ({["B"%string]} : gset string) → rank tm q <= rank tm p)
    ∧ (∀ p q, p ∈ keys corpus_abc → q ∈ keys corpus_abc →
         (p ∈ ({["B"%string]} : gset string)
          ↔ q ∈ ({["B"%string]} : gset string)) → rank tm p == rank tm q).
Proof.
  apply (transition_model_prefers_links corpus_abc "A" {["B"%string]} DAMPING).
  - decide_closed.
  - reflexivity.
  - reflexivity.
  - decide_closed.
Defined.

Lemma length_filter_links_lt (links : gset string) (ks : list string) q :
  NoDup ks → q ∈ links → q ∉ ks →
  (length (filter (.∈ links) ks) < size links)%nat.
Proof.
  intros Hnd Hq Hnq.
  assert (q :: filter (.∈ links) ks ⊆+ elements links) as Hsub.
  { apply NoDup_submseteq.
    - apply NoDup_cons. split; [|by apply NoDup_filter].
      rewrite list_elem_of_filter. tauto.
    - intros x [->|[Hx _]%list_elem_of_filter]%elem_of_cons;
        by apply elem_of_elements. }
  apply submseteq_length in Hsub. simpl in Hsub. unfold size, set_size. simpl. lia.
Qed.

(** X3. A link that is not a page of the corpus gets no entry in the
    dictionary [transition_model] returns. In exact arithmetic the total
    weight at a page with links is [1 - d], spread over all pages, plus the
    share [d/|L|] for each link that is a page of the corpus, so that a link
    outside the corpus loses its share and the exact total is below 1. *)
Theorem transition_model_mass corpus page links d :
  NoDup (keys corpus) → (page, links) ∈ corpus → links ≠ ∅ →
  ∃ tm, transition_model corpus page d = Ok tm
    ∧ (∀ q, q ∉ keys corpus → lookup tm q = None)
    ∧ Qsum (values tm)
      == (1 - d)
         + d * of_nat (length (filter (.∈ links) (keys corpus)))
           / of_nat (size links)
    ∧ (0 < d → ∀ q, q ∈ links → q ∉ keys corpus → Qsum (values tm) < 1).
Proof.
  intros Hnd Hin Hlinks.
  pose proof (elem_lookup_Some _ _ _ Hnd Hin) as Hl.
  assert ((0 < len corpus)%nat) as HN by eauto using lookup_len_pos.
  assert ((0 < size links)%nat) as Hsize.
  { destruct (size links) eqn:E; [|lia].
    apply size_empty_inv in E. by apply leibniz_equiv in E. }
  pose proof (of_nat_pos _ HN) as HNq.
  pose proof (of_nat_pos _ Hsize) as Hsq.
  assert (Qsum (weight_of corpus d links <$> keys corpus)
          == (1 - d)
             + d * of_nat (length (filter (.∈ links) (keys corpus)))
               / of_nat (size links)) as Hsum.
  { unfold weight_of. rewrite (Qsum_two_valued (.∈ links)), len_keys.
    unfold random_prob_of, links_prob_of.
    destruct (Nat.eqb_spec (size links) 0); [lia|]. simpl.
    field. split; lra. }
  eexists. split; [by apply transition_model_Ok|].
  split; [intros q Hq; apply lookup_None; by rewrite keys_tabulate|].
  rewrite values_tabulate. split; [done|].
  intros Hd0 q Hq Hnq. rewrite Hsum.
  pose proof (length_filter_links_lt links (keys corpus) q Hnd Hq Hnq) as Hlt.
  assert (of_nat (length (filter (.∈ links) (keys corpus))) < of_nat (size links))
    as Hltq.
  { unfold of_nat. rewrite <- Zlt_Qlt. lia. }
  assert (d * of_nat (length (filter (.∈ links) (keys corpus)))
          / of_nat (size links) < d); [|lra].
  apply Qlt_shift_div_r; [done|]. nra.
Qed.

Lemma transition_model_mass_witness :
  ∃ tm, transition_model corpus_leaky "1" DAMPING = Ok tm
    ∧ (∀ q, q ∉ keys corpus_leaky → lookup tm q = None)
    ∧ Qsum (values tm)
      == (1 - DAMPING)
         + DAMPING
           * of_nat (length (filter (.∈ ({["2"%string; "9"%string]} : gset string))
                               (keys corpus_leaky)))
           / of_nat (size ({["2"%string; "9"%string]} : gset string))
    ∧ (0 < DAMPING → ∀ q, q ∈ ({["2"%string; "9"%string]} : gset string) →
       q ∉ keys corpus_leaky → Qsum (values tm) < 1).
Proof.
  apply (transition_model_mass corpus_leaky "1" {["2"%string; "9"%string]}
           DAMPING).
  - decide_closed.
  - decide_closed.
  - decide_closed.
Defined.

(** ** The sampler, beyond the claims *)

Lemma set_tabulate {V} (f : string → V) (ks : list string) k v :
  NoDup ks → k ∈ ks →
  set ((fun p => (p, f p)) <$> ks) k v
  = (fun p => (p, if String.eqb p k then v else f p)) <$> ks.
Proof.
  induction ks as [|k' ks IH]; intros Hnd Hk.
  - by apply elem_of_nil in Hk.
  - apply NoDup_cons in Hnd as [Hk' Hnd]. simpl.
    destruct (String.eqb_spec k' k) as [->|Hne].
    + f_equal. apply Forall_fmap_ext_1, Forall_forall. intros p Hp.
      destruct (String.eqb_spec p k) as [->|_]; done.
    + f_equal. apply IH; [done|].
      apply elem_of_cons in Hk as [?|?]; [congruence | done].
Qed.

(** With at most one sample the walk is its first visit. *)
Lemma sample_pagerank_first corpus d n rnd :
  NoDup (keys corpus) → corpus ≠ [] → 0 <= rnd O → rnd O < 1 →
  ∃ cur, start_page corpus (rnd O) = Ok cur
    ∧ cur ∈ keys corpus
    ∧ ((n <= 1)%Z →
       sample_pagerank corpus d n rnd = divide_all (first_visit corpus cur) n).
Proof.
  intros Hnd Hne Hu0 Hu1.
  destruct (choice_Ok (keys corpus) (rnd O)) as (cur & Hcur & Hin); [|done..|].
  { by intros Hnil%fmap_nil_inv. }
  exists cur. split; [done|]. split; [done|]. intros Hn.
  unfold sample_pagerank. rewrite Hcur. simpl.
  rewrite (foldl_set_empty (fun _ => 0%Z)) by done.
  rewrite (get_Ok _ _ 0%Z) by by apply (lookup_tabulate (fun _ => 0%Z)).
  simpl. rewrite set_tabulate by done.
  replace (Z.to_nat (n - 1)) with O by lia. done.
Qed.

(** X4. Asked for zero samples on a non-empty corpus, [sample_pagerank] makes
    its first visit and then divides the counters by zero. *)
Theorem sample_pagerank_zero_samples corpus d rnd :
  NoDup (keys corpus) → corpus ≠ [] → 0 <= rnd O → rnd O < 1 →
  sample_pagerank corpus d 0 rnd = Raise ZeroDivisionError.
Proof.
  intros Hnd Hne Hu0 Hu1.
  destruct (sample_pagerank_first corpus d 0 rnd) as (cur & _ & _ & Hrun);
    [done..|].
  rewrite Hrun by lia. unfold first_visit. by destruct corpus as [|[p links] corpus].
Qed.

Lemma sample_pagerank_zero_samples_witness :
  sample_pagerank corpus_abc DAMPING 0 (fun _ => 1 # 2)
  = Raise ZeroDivisionError.
Proof.
  apply (sample_pagerank_zero_samples corpus_abc DAMPING (fun _ => 1 # 2)).
  - decide_closed.
  - discriminate.
  - discriminate.
  - reflexivity.
Defined.

(** X5. With [n <= 1] samples, [n] not zero, [sample_pagerank] draws the start
    page and stops, whatever the damping factor: the start page gets [1/n]
    and every other page 0. For [n = 1] that is rank 1; for a negative [n],
    which the code does not refuse, it is a negative value. *)
Theorem sample_pagerank_single_visit corpus d n rnd :
  NoDup (keys corpus) → corpus ≠ [] → 0 <= rnd O → rnd O < 1 →
  (n <= 1)%Z → n ≠ 0%Z →
  ∃ cur ranks, start_page corpus (rnd O) = Ok cur
    ∧ cur ∈ keys corpus
    ∧ sample_pagerank corpus d n rnd = Ok ranks
    ∧ keys ranks = keys corpus
    ∧ rank ranks cur == 1 / inject_Z n
    ∧ ∀ p, p ≠ cur → rank ranks p == 0.
Proof.
  intros Hnd Hne Hu0 Hu1 Hn1 Hn0.
  destruct (sample_pagerank_first corpus d n rnd) as (cur & Hcur & Hin & Hrun);
    [done..|].
  exists cur, (frequencies (first_visit corpus cur) n).
  split; [done|]. split; [done|].
  split; [by rewrite Hrun, divide_all_Ok by lia|].
  assert (frequencies (first_visit corpus cur) n
          = (fun p => (p, inject_Z (if String.eqb p cur then 1 else 0)
                          / inject_Z n)) <$> keys corpus) as ->.
  { unfold frequencies, first_visit. by rewrite <- list_fmap_compose. }
  split; [apply keys_tabulate|]. split.
  - rewrite (rank_tabulate (fun p => inject_Z (if String.eqb p cur then 1 else 0)
                                     / inject_Z n)) by done.
    by rewrite String.eqb_refl.
  - intros p Hp. destruct (decide (p ∈ keys corpus)) as [Hk|Hk].
    + rewrite (rank_tabulate
                 (fun p => inject_Z (if String.eqb p cur then 1 else 0)
                           / inject_Z n)) by done.
      destruct (String.eqb_spec p cur); [done|]. unfold Qdiv. ring.
    + unfold rank.
      rewrite (proj2 (lookup_None _ p)); [done|]. by rewrite keys_tabulate.
Qed.

Lemma sample_pagerank_single_visit_witness :
  ∃ cur ranks, start_page corpus_abc (1 # 2) = Ok cur
    ∧ cur ∈ keys corpus_abc
    ∧ sample_pagerank corpus_abc DAMPING (-2) (fun _ => 1 # 2) = Ok ranks
    ∧ keys ranks = keys corpus_abc
    ∧ rank ranks cur == 1 / inject_Z (-2)
    ∧ ∀ p, p ≠ cur → rank ranks p == 0.
Proof.
  apply (sample_pagerank_single_visit corpus_abc DAMPING (-2) (fun _ => 1 # 2)).
  - decide_closed.
  - discriminate.
  - discriminate.
  - reflexivity.
  - lia.
  - lia.
Defined.

Lemma accumulate_from_zero acc ws :
  acc == 0 → Forall (fun w => w == 0) ws →
  Forall (fun c => c == 0) (accumulate_from acc ws).
Proof.
  intros Hacc Hws. revert acc Hacc.
  induction Hws as [|w ws Hw _ IH]; intros acc Hacc; simpl; [done|].
  assert (acc + w == 0) by (rewrite Hacc, Hw; ring).
  constructor; [done | by apply IH].
Qed.

Lemma choices_zero_total {A} (population : list A) weights u :
  length population = length weights → weights ≠ [] →
  Forall (fun w => w == 0) weights →
  choices population weights u
  = Raise (ValueError "Total of weights must be greater than zero").
Proof.
  intros Hlen Hne Hzero. unfold choices.
  rewrite accumulate_length, Hlen, Nat.eqb_refl. simpl.
  assert ((0 < length weights)%nat) as Hn
    by (destruct weights; simpl; [done | lia]).
  destruct (index_Ok (accumulate weights) (length weights - 1))
    as (total & -> & Htotal); [rewrite accumulate_length; lia|]. simpl.
  assert (Forall (fun c => c == 0) (accumulate weights)) as Hcum.
  { destruct Hzero as [|w ws Hw Hws]; simpl; [done|].
    constructor; [done | by apply accumulate_from_zero]. }
  rewrite Forall_forall in Hcum. apply Hcum in Htotal.
  by rewrite (proj2 (Qle_bool_iff total 0)) by (rewrite Htotal; apply Qle_refl).
Qed.

Lemma sample_step_zero_total corpus rnd pr cur i :
  NoDup (keys corpus) → lookup corpus cur = Some ∅ →
  sample_step corpus 1 rnd (pr, cur) i
  = Raise (ValueError "Total of weights must be greater than zero").
Proof.
  intros Hnd Hl.
  assert ((0 < len corpus)%nat) as HN by eauto using lookup_len_pos.
  unfold sample_step. rewrite transition_model_dangling by done. simpl.
  rewrite keys_tabulate, values_tabulate, choices_zero_total; [done|..].
  - by rewrite length_fmap.
  - intros Hnil%fmap_nil_inv. rewrite <- len_keys, Hnil in HN. simpl in HN. lia.
  - apply Forall_fmap, Forall_forall. intros p _. simpl.
    unfold random_prob_of, Qdiv. ring.
Qed.

(** X6. With damping factor 1 a walk of two samples or more that starts on a
    page without links stops at its first draw: all the weights are zero and
    [random.choices] raises its [ValueError]. *)
Theorem sample_pagerank_damping_one corpus n rnd cur :
  NoDup (keys corpus) → start_page corpus (rnd O) = Ok cur →
  lookup corpus cur = Some ∅ → (2 <= n)%Z →
  sample_pagerank corpus 1 n rnd
  = Raise (ValueError "Total of weights must be greater than zero").
Proof.
  intros Hnd Hcur Hl Hn. unfold start_page in Hcur.
  assert (cur ∈ keys corpus) as Hin by (apply lookup_is_Some; eauto).
  assert ((0 < len corpus)%nat) as HN by eauto using lookup_len_pos.
  unfold sample_pagerank. rewrite Hcur. simpl.
  rewrite (foldl_set_empty (fun _ => 0%Z)) by done.
  rewrite (get_Ok _ _ 0%Z) by by apply (lookup_tabulate (fun _ => 0%Z)).
  simpl.
  destruct (Z.to_nat (n - 1)) as [|k] eqn:Hk; [lia|].
  rewrite <- cons_seq, for_each_cons.
  by rewrite sample_step_zero_total.
Qed.

Lemma sample_pagerank_damping_one_witness :
  sample_pagerank corpus_dangling 1 10 (fun _ => 1 # 2)
  = Raise (ValueError "Total of weights must be greater than zero").
Proof.
  apply (sample_pagerank_damping_one corpus_dangling 10 (fun _ => 1 # 2) "2").
  - decide_closed.
  - reflexivity.
  - reflexivity.
  - lia.
Defined.

(** ** The iterative solver, beyond the claims *)

Lemma loop_body_run corpus d st st' :
  loop_body corpus d st = Ok st' →
  ∃ cc', for_each (keys corpus) (update_step corpus d)
           (st_pageRanks st, st_converged_count st)
         = Ok (st_pageRanks st', cc').
Proof.
  unfold loop_body.
  destruct (for_each (keys corpus) (update_step corpus d)
              (st_pageRanks st, st_converged_count st))
    as [[pr' cc']|e]; simpl; [|done].
  destruct (cc' =? len corpus)%nat; intros [= <-]; eauto.
Qed.

(** A property of the rank dictionary that every single update keeps is
    kept by a run of the update loop. *)
Lemma update_pass_invariant corpus d (P : dict Q → Prop) :
  NoDup (keys corpus) →
  (∀ pr page v, keys pr = keys corpus → page ∈ keys corpus → P pr →
     new_rank corpus d pr page = Ok v → P (set pr page v)) →
  ∀ (ks : list string) pr cc pr' cc',
    keys pr = keys corpus → (∀ q, q ∈ ks → q ∈ keys corpus) → P pr →
    for_each ks (update_step corpus d) (pr, cc) = Ok (pr', cc') → P pr'.
Proof.
  intros Hnd Hstep ks.
  induction ks as [|page ks IH]; intros pr cc pr' cc' Hkeys Hsub HP Hrun.
  - by injection Hrun as <- <-.
  - assert (page ∈ keys corpus) as Hpage by (apply Hsub; left).
    destruct (update_step_Ok corpus d pr cc page) as (v & Hv & _ & Hupd);
      [done..|].
    rewrite for_each_cons, Hupd in Hrun.
    apply (IH _ _ _ _) in Hrun; [done | | | by eapply Hstep].
    + rewrite keys_set_present; [done | by rewrite Hkeys].
    + intros q Hq. apply Hsub. by right.
Qed.

(** The same along the [while] loop, up to the pass that raises the flag. *)
Lemma while_returns_inv corpus d (P : dict Q → Prop) fuel st r :
  NoDup (keys corpus) →
  (∀ pr page v, keys pr = keys corpus → page ∈ keys corpus → P pr →
     new_rank corpus d pr page = Ok v → P (set pr page v)) →
  loop_head corpus st → P (st_pageRanks st) →
  while_not_converged fuel corpus d st = Some r →
  ∃ prev st', loop_head corpus prev
    ∧ P (st_pageRanks prev)
    ∧ loop_body corpus d prev = Ok st'
    ∧ st_converged st' = true
    ∧ r = Ok st'.
Proof.
  intros Hnd Hstep. revert st.
  induction fuel as [|fuel IH]; intros st Hhead HP Hrun.
  - destruct Hhead as (_ & Hflag & _). simpl in Hrun. by rewrite Hflag in Hrun.
  - destruct (loop_body_spec corpus d st Hnd Hhead)
      as (st1 & Hbody & Hk1 & _ & _ & Hreset).
    pose proof Hhead as (Hkeys & Hflag & _).
    rewrite (while_step _ _ _ _ st1) in Hrun by done.
    destruct (st_converged st1) eqn:Hflag1.
    + rewrite while_converged in Hrun by done.
      injection Hrun as <-. by exists st, st1.
    + apply (IH st1); [repeat split; auto | | done].
      destruct (loop_body_run _ _ _ _ Hbody) as (cc' & Hpass).
      by eapply (update_pass_invariant corpus d P Hnd Hstep (keys corpus)).
Qed.

(** The rank a pass leaves for a page is the value of the rank equation on
    the dictionary reached after the pages before it. *)
Lemma pass_page_value corpus d prev st' page :
  NoDup (keys corpus) → loop_head corpus prev →
  loop_body corpus d prev = Ok st' → page ∈ keys corpus →
  ∃ pre mid ccm,
    (∀ q, q ∈ pre → q ∈ keys corpus)
    ∧ for_each pre (update_step corpus d) (st_pageRanks prev, O)
      = Ok (mid, ccm)
    ∧ rank (st_pageRanks st') page == rank_equation corpus d mid page.
Proof.
  intros Hnd (Hkeys & _ & Hcount) Hbody Hpage.
  destruct (list_elem_of_split _ _ Hpage) as (pre & post & Hsplit).
  destruct (loop_body_run _ _ _ _ Hbody) as (cc1 & Hpass).
  rewrite Hcount in Hpass.
  destruct (update_pass_split corpus d pre page post (st_pageRanks prev) O
              Hnd Hkeys Hsplit)
    as (mid & ccm & pr' & cc' & v & Hpre & Hrun & _ & _ & _ & _ & Hv & Hl).
  rewrite Hrun in Hpass. injection Hpass as <- <-.
  exists pre, mid, ccm. split; [|split; [done|]].
  - intros q Hq. rewrite Hsplit. apply elem_of_app. by left.
  - by rewrite (rank_lookup _ _ _ Hl).
Qed.

Lemma iterate_pagerank_Ok_keys corpus d fuel r :
  NoDup (keys corpus) → iterate_pagerank fuel corpus d = Some r →
  ∃ ranks, r = Ok ranks ∧ keys ranks = keys corpus.
Proof.
  intros Hnd Hrun. unfold iterate_pagerank in Hrun.
  destruct (initial_loop_head corpus Hnd) as (r0 & Hr0 & Hhead & _).
  rewrite Hr0 in Hrun.
  destruct (while_not_converged fuel corpus d (LoopState r0 false 0))
    as [r'|] eqn:Hwhile; [|done].
  destruct (while_returns _ _ _ _ _ Hnd Hhead Hwhile)
    as (prev & st' & Hprev & Hbody & _ & ->).
  injection Hrun as <-.
  destruct (loop_body_spec corpus d prev Hnd Hprev) as (st1 & Hbody1 & Hk & _).
  rewrite Hbody in Hbody1. injection Hbody1 as <-. eauto.
Qed.

(** X7. On a corpus [iterate_pagerank] raises no exception, whatever the damping
    factor: no key is ever missing and no division is by zero. What it
    returns has the keys of the corpus, in the order of the corpus. *)
Theorem iterate_pagerank_never_raises corpus d fuel r :
  NoDup (keys corpus) → iterate_pagerank fuel corpus d = Some r →
  ∃ ranks, r = Ok ranks ∧ keys ranks = keys corpus.
Proof. apply iterate_pagerank_Ok_keys. Qed.

Lemma iterate_pagerank_never_raises_witness :
  ∃ ranks,
    Ok [("1"%string, (1 - 2) / of_nat 1 + 2 * (0 + 1 / of_nat 1 / of_nat 1))]
    = Ok ranks
    ∧ keys ranks = keys corpus_solo.
Proof.
  apply (iterate_pagerank_never_raises corpus_solo 2 1).
  - decide_closed.
  - reflexivity.
Defined.

Lemma of_nat_nonneg n : 0 <= of_nat n.
Proof. unfold of_nat. change 0 with (inject_Z 0). rewrite <- Zle_Qle. lia. Qed.

Lemma Qsum_fmap_nonneg {A} (f : A → Q) (l : list A) :
  (∀ x, 0 <= f x) → 0 <= Qsum (f <$> l).
Proof.
  intros Hf. induction l as [|x l IH]; [apply Qle_refl|].
  change (0 <= f x + Qsum (f <$> l)). specialize (Hf x). lra.
Qed.

Lemma ranks_nonneg_set pr page v :
  ranks_nonneg pr → 0 <= v → ranks_nonneg (set pr page v).
Proof.
  intros Hpr Hv q. destruct (decide (page = q)) as [->|Hne].
  - by rewrite rank_set_eq.
  - by rewrite rank_set_ne.
Qed.

Lemma rank_equation_lower_bound corpus d pr page :
  ranks_nonneg pr → 0 <= d →
  (1 - d) / of_nat (len corpus) <= rank_equation corpus d pr page.
Proof.
  intros Hpr Hd. unfold rank_equation.
  assert (0 <= Qsum (contribution corpus pr
                       <$> List.filter (links_to page) corpus)) as Hsum.
  { apply Qsum_fmap_nonneg. intros e. unfold contribution, Qdiv.
    apply Qmult_le_0_compat; [apply Hpr|].
    apply Qinv_le_0_compat, of_nat_nonneg. }
  nra.
Qed.

Lemma ranks_nonneg_step corpus d :
  NoDup (keys corpus) → 0 <= d → d <= 1 →
  ∀ pr page v, keys pr = keys corpus → page ∈ keys corpus → ranks_nonneg pr →
    new_rank corpus d pr page = Ok v → ranks_nonneg (set pr page v).
Proof.
  intros Hnd Hd0 Hd1 pr page v Hkeys Hpage Hpr Hv.
  destruct (new_rank_Ok corpus d pr page) as (v' & Hv' & Heq); [done..|].
  rewrite Hv in Hv'. injection Hv' as <-.
  apply ranks_nonneg_set; [done|]. rewrite Heq.
  eapply Qle_trans; [|by apply rank_equation_lower_bound].
  unfold Qdiv. apply Qmult_le_0_compat; [lra|].
  apply Qinv_le_0_compat, of_nat_nonneg.
Qed.

(** X8. For a damping factor in [0,1], every rank [iterate_pagerank] returns is
    at least the baseline [(1 - d)/N]: no page ends below the share of the
    random jump, and no rank is negative. *)
Theorem iterate_pagerank_lower_bound corpus d fuel ranks :
  NoDup (keys corpus) → 0 <= d → d <= 1 →
  iterate_pagerank fuel corpus d = Some (Ok ranks) →
  ∀ p, p ∈ keys corpus → (1 - d) / of_nat (len corpus) <= rank ranks p.
Proof.
  intros Hnd Hd0 Hd1 Hrun p Hp. unfold iterate_pagerank in Hrun.
  destruct (initial_loop_head corpus Hnd) as (r0 & Hr0 & Hhead & Hrank).
  rewrite Hr0 in Hrun.
  destruct (while_not_converged fuel corpus d (LoopState r0 false 0))
    as [r'|] eqn:Hwhile; [|done].
  assert (ranks_nonneg r0) as Hr0nn.
  { intros q. destruct (decide (q ∈ keys corpus)) as [Hq|Hq].
    - rewrite Hrank by done. unfold Qdiv.
      apply Qmult_le_0_compat; [lra|].
      apply Qinv_le_0_compat, of_nat_nonneg.
    - unfold rank. rewrite (proj2 (lookup_None r0 q)); [apply Qle_refl|].
      destruct Hhead as (Hk & _). simpl in Hk. by rewrite Hk. }
  destruct (while_returns_inv corpus d ranks_nonneg _ _ _ Hnd
              (ranks_nonneg_step corpus d Hnd Hd0 Hd1) Hhead Hr0nn Hwhile)
    as (prev & st' & Hprev & Hnn & Hbody & _ & ->).
  injection Hrun as <-.
  destruct (pass_page_value corpus d prev st' p Hnd Hprev Hbody Hp)
    as (pre & mid & ccm & Hsub & Hpre & ->).
  apply rank_equation_lower_bound; [|done].
  eapply (update_pass_invariant corpus d ranks_nonneg Hnd
            (ranks_nonneg_step corpus d Hnd Hd0 Hd1) pre);
    [apply Hprev | done | done | exact Hpre].
Qed.

Lemma iterate_pagerank_lower_bound_witness :
  (1 - DAMPING) / of_nat (len corpus_solo)
  <= rank [("1"%string,
            (1 - DAMPING) / of_nat 1
            + DAMPING * (0 + 1 / of_nat 1 / of_nat 1))] "1".
Proof.
  apply (iterate_pagerank_lower_bound corpus_solo DAMPING 1).
  - decide_closed.
  - discriminate.
  - discriminate.
  - reflexivity.
  - decide_closed.
Defined.

Lemma Qsum_fmap_scale {A} (f g : A → Q) (c : Q) (l : list A) :
  (∀ x, x ∈ l → f x == c * g x) → Qsum (f <$> l) == c * Qsum (g <$> l).
Proof.
  induction l as [|x l IH]; intros Hfg; [simpl; ring|].
  change (f x + Qsum (f <$> l) == c * (g x + Qsum (g <$> l))).
  rewrite (Hfg x) by left. rewrite IH; [ring|].
  intros y Hy. apply Hfg. by right.
Qed.

Lemma rank_equation_uniform corpus d pr page :
  ranks_uniform corpus pr → balanced_at corpus page → (0 < len corpus)%nat →
  rank_equation corpus d pr page == 1 / of_nat (len corpus).
Proof.
  intros Hpr Hbal HN. pose proof (of_nat_pos _ HN) as HNq.
  unfold rank_equation.
  rewrite (Qsum_fmap_scale _ (fun e => 1 / of_nat (out_degree corpus e))
             (1 / of_nat (len corpus))).
  - unfold balanced_at in Hbal. rewrite Hbal. field. lra.
  - intros e [He _]%list_elem_of_In%filter_In. unfold contribution.
    assert (rank pr e.1 == 1 / of_nat (len corpus)) as ->.
    { apply Hpr, list_elem_of_fmap. exists e.
      split; [done | by apply list_elem_of_In]. }
    unfold Qdiv. ring.
Qed.

Lemma ranks_uniform_step corpus d :
  NoDup (keys corpus) → balanced corpus →
  ∀ pr page v, keys pr = keys corpus → page ∈ keys corpus →
    ranks_uniform corpus pr →
    new_rank corpus d pr page = Ok v → ranks_uniform corpus (set pr page v).
Proof.
  intros Hnd Hbal pr page v Hkeys Hpage Hpr Hv.
  destruct (new_rank_Ok corpus d pr page) as (v' & Hv' & Heq); [done..|].
  rewrite Hv in Hv'. injection Hv' as <-.
  assert ((0 < len corpus)%nat) as HN.
  { apply lookup_is_Some in Hpage as [? ?]. eauto using lookup_len_pos. }
  intros q Hq. destruct (decide (page = q)) as [->|Hne].
  - rewrite rank_set_eq, Heq. apply rank_equation_uniform; auto.
  - rewrite rank_set_ne by done. by apply Hpr.
Qed.

(** X9. On a corpus where the uniform vector satisfies the rank equation at
    every page (no links at all, a cycle, two pages linking to each other),
    for a damping factor in [0,1], [iterate_pagerank] returns after its
    first pass; the rank it gives every page is [1/N] in exact
    arithmetic. *)
Theorem iterate_pagerank_balanced corpus d fuel :
  NoDup (keys corpus) → balanced corpus → 0 <= d → d <= 1 →
  ∃ ranks, iterate_pagerank (S fuel) corpus d = Some (Ok ranks)
    ∧ keys ranks = keys corpus
    ∧ ranks_uniform corpus ranks.
Proof.
  intros Hnd Hbal _ _.
  destruct (initial_loop_head corpus Hnd) as (r0 & Hr0 & Hhead & Hrank).
  assert (ranks_uniform corpus r0) as Hr0u.
  { intros q Hq. by rewrite Hrank. }
  destruct (loop_body_spec corpus d _ Hnd Hhead)
    as (st' & Hbody & Hk' & Hiff & _ & _).
  assert (ranks_uniform corpus (st_pageRanks st')) as Hu.
  { intros p Hp.
    destruct (pass_page_value corpus d _ st' p Hnd Hhead Hbody Hp)
      as (pre & mid & ccm & Hsub & Hpre & ->).
    apply rank_equation_uniform; [|by apply Hbal|].
    - eapply (update_pass_invariant corpus d (ranks_uniform corpus) Hnd
                (ranks_uniform_step corpus d Hnd Hbal) pre);
        [apply Hhead | done | exact Hr0u | exact Hpre].
    - apply lookup_is_Some in Hp as [? ?]. eauto using lookup_len_pos. }
  assert (st_converged st' = true) as Hflag.
  { apply Hiff. intros p Hp. apply within_tolerance_abs. cbn [st_pageRanks].
    assert (rank (st_pageRanks st') p - rank r0 p == 0) as Hz
      by (rewrite (Hu p Hp), (Hr0u p Hp); ring).
    rewrite Hz. discriminate. }
  exists (st_pageRanks st'). split; [|done].
  unfold iterate_pagerank. rewrite Hr0.
  rewrite (while_step _ _ _ _ st') by done.
  by rewrite while_converged.
Qed.

Lemma iterate_pagerank_balanced_witness :
  ∃ ranks, iterate_pagerank 1 corpus_cycle DAMPING = Some (Ok ranks)
    ∧ keys ranks = keys corpus_cycle
    ∧ ranks_uniform corpus_cycle ranks.
Proof.
  apply (iterate_pagerank_balanced corpus_cycle DAMPING O).
  - decide_closed.
  - intros p Hp. unfold corpus_cycle in Hp. simpl in Hp.
    repeat (apply elem_of_cons in Hp as [->|Hp]);
      [vm_compute; reflexivity.. | by apply elem_of_nil in Hp].
  - discriminate.
  - discriminate.
Defined.

(** ** The corpus builder *)

Lemma NoDup_app_drop {A} (l k : list A) x : NoDup (l ++ x :: k) → NoDup (l ++ k).
Proof.
  rewrite <- Permutation_middle. by intros [_ ?]%NoDup_cons.
Qed.

Lemma html_entries_cons entry directory :
  html_entries (entry :: directory)
  = if endswith entry.1 ".html"
    then entry :: html_entries directory
    else html_entries directory.
Proof. done. Qed.

Lemma html_entries_elem directory entry :
  entry ∈ html_entries directory
  ↔ entry ∈ directory ∧ endswith entry.1 ".html" = true.
Proof.
  unfold html_entries. rewrite !list_elem_of_In, filter_In. done.
Qed.

Lemma html_entries_NoDup directory :
  NoDup directory.*1 → NoDup (html_entries directory).*1.
Proof.
  induction directory as [|entry directory IH]; [done|].
  rewrite html_entries_cons, fmap_cons, NoDup_cons. intros [Hentry Hnd].
  destruct (endswith entry.1 ".html"); [|auto].
  rewrite fmap_cons, NoDup_cons. split; [|auto].
  intros (e & He1 & [He _]%html_entries_elem)%list_elem_of_fmap.
  apply Hentry, list_elem_of_fmap. eauto.
Qed.

(** The first loop files every page under its name, with the set of its
    [href] values less the page itself. *)
Lemma crawl_read_foldl findall directory (acc : corpus_t) :
  NoDup (keys acc ++ directory.*1) →
  foldl (crawl_read findall) acc directory
  = acc ++ ((fun entry => (entry.1, list_to_set (findall entry.2) ∖ {[entry.1]}))
              <$> html_entries directory).
Proof.
  revert acc.
  induction directory as [|[filename contents] directory IH]; intros acc Hnd.
  - simpl. by rewrite app_nil_r.
  - rewrite html_entries_cons. simpl in *.
    destruct (endswith filename ".html"); simpl.
    + assert (filename ∉ keys acc) as Hfresh.
      { apply NoDup_app in Hnd as (_ & Hd & _). intros Hin.
        apply (Hd filename Hin). left. }
      rewrite set_absent by done. rewrite IH.
      * by rewrite <- app_assoc.
      * unfold keys. rewrite fmap_app. simpl. by rewrite <- app_assoc.
    + apply IH. by eapply NoDup_app_drop.
Qed.

(** The second loop narrows the links of every page to the names that are
    pages, and changes nothing else. *)
Lemma crawl_restrict_pass (ks : list string) (pages : corpus_t) :
  NoDup ks → (∀ f, f ∈ ks → f ∈ keys pages) →
  ∃ pages', for_each ks crawl_restrict pages = Ok pages'
    ∧ keys pages' = keys pages
    ∧ (∀ f, f ∉ ks → lookup pages' f = lookup pages f)
    ∧ (∀ f links, f ∈ ks → lookup pages f = Some links →
         ∃ links', lookup pages' f = Some links'
           ∧ ∀ q, q ∈ links' ↔ q ∈ links ∧ q ∈ keys pages).
Proof.
  revert pages. induction ks as [|f ks IH]; intros pages Hnd Hsub.
  - exists pages. repeat split; try done.
    intros f links Hf. by apply elem_of_nil in Hf.
  - apply NoDup_cons in Hnd as [Hf Hnd].
    assert (f ∈ keys pages) as Hfk by (apply Hsub; left).
    destruct (proj2 (lookup_is_Some _ _) Hfk) as [links0 Hl0].
    remember (set pages f (filter (fun link => contains pages link = true) links0))
      as pages1 eqn:Hp1.
    assert (keys pages1 = keys pages) as Hk1.
    { subst pages1. by apply keys_set_present. }
    destruct (IH pages1 Hnd) as (pages' & Hrun & Hk' & Hout & Hin).
    { intros g Hg. rewrite Hk1. apply Hsub. by right. }
    exists pages'. split; [|split; [congruence|split]].
    + assert (crawl_restrict pages f = Ok pages1) as Hstep.
      { unfold crawl_restrict. rewrite (get_Ok _ _ _ Hl0). by rewrite Hp1. }
      rewrite for_each_cons, Hstep. exact Hrun.
    + intros g [Hne Hg]%not_elem_of_cons. rewrite Hout by done.
      subst pages1. by apply lookup_set_ne.
    + intros g links [->|Hg]%elem_of_cons Hl.
      * rewrite Hl in Hl0. injection Hl0 as <-.
        eexists. split.
        -- rewrite Hout by done. subst pages1. apply lookup_set_eq.
        -- intros q. rewrite elem_of_filter, contains_true. tauto.
      * destruct (Hin g links Hg) as (links' & Hl' & Hiff).
        { subst pages1. rewrite lookup_set_ne; [done | by intros ->]. }
        exists links'. split; [done|]. intros q. by rewrite Hiff, Hk1.
Qed.

(** What [crawl] returns, in full. *)
Lemma crawl_Ok findall directory :
  NoDup directory.*1 →
  ∃ corpus, crawl findall directory = Ok corpus
    ∧ keys corpus = (html_entries directory).*1
    ∧ ∀ f contents, (f, contents) ∈ html_entries directory →
        ∃ links, lookup corpus f = Some links
          ∧ ∀ q, q ∈ links ↔ q ∈ findall contents ∧ q ≠ f ∧ q ∈ keys corpus.
Proof.
  intros Hnd. unfold crawl.
  rewrite (crawl_read_foldl findall directory []) by done. simpl.
  set (pages := (fun entry : string * string =>
                   (entry.1, list_to_set (findall entry.2) ∖ {[entry.1]}))
                <$> html_entries directory).
  assert (keys pages = (html_entries directory).*1) as Hkeys.
  { unfold keys, pages. rewrite <- list_fmap_compose. done. }
  assert (NoDup (keys pages)) as Hndp.
  { rewrite Hkeys. by apply html_entries_NoDup. }
  destruct (crawl_restrict_pass (keys pages) pages Hndp)
    as (corpus & Hrun & Hk & _ & Hin); [done|].
  exists corpus. split; [done|]. split; [congruence|].
  intros f contents Hentry.
  assert ((f, list_to_set (findall contents) ∖ {[f]}) ∈ pages) as Hp.
  { apply list_elem_of_fmap. by exists (f, contents). }
  destruct (Hin f (list_to_set (findall contents) ∖ {[f]}))
    as (links & Hl & Hiff).
  { rewrite Hkeys. apply list_elem_of_fmap. by exists (f, contents). }
  { by apply elem_lookup_Some. }
  exists links. split; [done|]. intros q.
  rewrite Hiff, Hk, elem_of_difference, elem_of_list_to_set, elem_of_singleton.
  tauto.
Qed.

Lemma crawl_keys_elem directory f :
  f ∈ (html_entries directory).*1
  ↔ f ∈ directory.*1 ∧ endswith f ".html" = true.
Proof.
  rewrite !list_elem_of_fmap. split.
  - intros (e & -> & [He Hhtml]%html_entries_elem). eauto.
  - intros [(e & -> & He) Hhtml]. exists e.
    split; [done|]. by apply html_entries_elem.
Qed.

(** The invariants of the graph [crawl] builds. *)
Lemma crawl_graph findall directory :
  NoDup directory.*1 →
  ∃ corpus, crawl findall directory = Ok corpus
    ∧ NoDup (keys corpus)
    ∧ ∀ p links, (p, links) ∈ corpus →
        (∀ q, q ∈ links → q ∈ keys corpus) ∧ p ∉ links.
Proof.
  intros Hnd.
  destruct (crawl_Ok findall directory Hnd) as (corpus & Hrun & Hkeys & Hlinks).
  assert (NoDup (keys corpus)) as Hndk.
  { rewrite Hkeys. by apply html_entries_NoDup. }
  exists corpus. split; [done|]. split; [done|].
  intros p links Hp.
  assert (p ∈ (html_entries directory).*1) as Hpk.
  { rewrite <- Hkeys. apply list_elem_of_fmap. by exists (p, links). }
  apply list_elem_of_fmap in Hpk as ([f contents] & Hpf & Hentry).
  simpl in Hpf. subst p.
  destruct (Hlinks f contents Hentry) as (links' & Hl & Hiff).
  rewrite (elem_lookup_Some _ _ _ Hndk Hp) in Hl. injection Hl as <-.
  split; [intros q Hq | intros Hself]; apply Hiff in Hq || apply Hiff in Hself;
    tauto.
Qed.

(** X10. [crawl] raises nothing on a directory of readable files, and the pages
    of the corpus are the entries of the directory named [*.html], in
    listing order, each once: a file with another name is never a page. *)
Theorem crawl_pages findall directory :
  NoDup directory.*1 →
  ∃ corpus, crawl findall directory = Ok corpus
    ∧ keys corpus = (html_entries directory).*1
    ∧ NoDup (keys corpus)
    ∧ ∀ f, f ∈ keys corpus ↔ f ∈ directory.*1 ∧ endswith f ".html" = true.
Proof.
  intros Hnd.
  destruct (crawl_Ok findall directory Hnd) as (corpus & Hrun & Hkeys & _).
  exists corpus. split; [done|]. split; [done|]. rewrite Hkeys.
  split; [by apply html_entries_NoDup | apply crawl_keys_elem].
Qed.

Lemma crawl_pages_witness :
  ∃ corpus, crawl words directory_demo = Ok corpus
    ∧ keys corpus = (html_entries directory_demo).*1
    ∧ NoDup (keys corpus)
    ∧ ∀ f, f ∈ keys corpus
           ↔ f ∈ directory_demo.*1 ∧ endswith f ".html" = true.
Proof.
  apply (crawl_pages words directory_demo). decide_closed.
Defined.

(** X11. The links [crawl] records for a page are the [href] values found in the
    page that name another page of the directory: a link to the page
    itself, to a file that is not a page or to a name outside the directory
    is dropped, and nothing else is. *)
Theorem crawl_links findall directory :
  NoDup directory.*1 →
  ∃ corpus, crawl findall directory = Ok corpus
    ∧ ∀ f contents, (f, contents) ∈ directory → endswith f ".html" = true →
        ∃ links, (f, links) ∈ corpus
          ∧ ∀ q, q ∈ links
                 ↔ q ∈ findall contents ∧ q ≠ f
                   ∧ q ∈ directory.*1 ∧ endswith q ".html" = true.
Proof.
  intros Hnd.
  destruct (crawl_Ok findall directory Hnd) as (corpus & Hrun & Hkeys & Hlinks).
  exists corpus. split; [done|]. intros f contents Hentry Hhtml.
  destruct (Hlinks f contents) as (links & Hl & Hiff).
  { by apply html_entries_elem. }
  exists links. split; [by apply lookup_Some_elem|].
  intros q. by rewrite Hiff, Hkeys, crawl_keys_elem.
Qed.

Lemma crawl_links_witness :
  ∃ corpus, crawl words directory_demo = Ok corpus
    ∧ ∀ f contents, (f, contents) ∈ directory_demo →
        endswith f ".html" = true →
        ∃ links, (f, links) ∈ corpus
          ∧ ∀ q, q ∈ links
                 ↔ q ∈ words contents ∧ q ≠ f
                   ∧ q ∈ directory_demo.*1 ∧ endswith q ".html" = true.
Proof.
  apply (crawl_links words directory_demo). decide_closed.
Defined.

(** X12. The corpus [crawl] returns is a graph in the sense the estimators rely
    on: no page is listed twice, every link of a page is itself a page, and
    no page links to itself. *)
Theorem crawl_graph_invariants findall directory :
  NoDup directory.*1 →
  ∃ corpus, crawl findall directory = Ok corpus
    ∧ NoDup (keys corpus)
    ∧ ∀ p links, (p, links) ∈ corpus →
        (∀ q, q ∈ links → q ∈ keys corpus) ∧ p ∉ links.
Proof. apply crawl_graph. Qed.

Lemma crawl_graph_invariants_witness :
  ∃ corpus, crawl words directory_demo = Ok corpus
    ∧ NoDup (keys corpus)
    ∧ ∀ p links, (p, links) ∈ corpus →
        (∀ q, q ∈ links → q ∈ keys corpus) ∧ p ∉ links.
Proof.
  apply (crawl_graph_invariants words directory_demo). decide_closed.
Defined.

(** X13. On the corpus [crawl] builds, the transition model of a page with links
    is a distribution: its values sum to 1, whatever the damping factor,
    because [crawl] has dropped every link that is not a page. *)
Theorem crawl_transition_model findall directory d :
  NoDup directory.*1 →
  ∃ corpus, crawl findall directory = Ok corpus
    ∧ ∀ page links, (page, links) ∈ corpus → links ≠ ∅ →
        ∃ tm, transition_model corpus page d = Ok tm
          ∧ keys tm = keys corpus
          ∧ Qsum (values tm) == 1.
Proof.
  intros Hnd.
  destruct (crawl_graph findall directory Hnd) as (corpus & Hrun & Hndk & Hinv).
  exists corpus. split; [done|]. intros page links Hpage Hlinks.
  destruct (Hinv page links Hpage) as [Hclosed _].
  pose proof (elem_lookup_Some _ _ _ Hndk Hpage) as Hl.
  assert ((0 < len corpus)%nat) as HN by eauto using lookup_len_pos.
  eexists. split; [by apply transition_model_Ok|].
  rewrite keys_tabulate, values_tabulate. split; [done|].
  rewrite Qsum_weights by done.
  destruct (Nat.eqb_spec (size links) 0) as [Hz|_]; [|ring].
  apply size_empty_inv in Hz. by apply leibniz_equiv in Hz.
Qed.

Lemma crawl_transition_model_witness :
  ∃ corpus, crawl words directory_demo = Ok corpus
    ∧ ∀ page links, (page, links) ∈ corpus → links ≠ ∅ →
        ∃ tm, transition_model corpus page DAMPING = Ok tm
          ∧ keys tm = keys corpus
          ∧ Qsum (values tm) == 1.
Proof.
  apply (crawl_transition_model words directory_demo DAMPING). decide_closed.
Defined.

(** X14. On a directory without any [*.html] entry [crawl] returns the empty
    corpus, and the sampler run on it, as the program does next, raises the
    [IndexError] of [random.choice]. *)
Theorem crawl_no_pages findall directory d n rnd :
  NoDup directory.*1 → html_entries directory = [] →
  crawl findall directory = Ok []
  ∧ (corpus ← crawl findall directory; sample_pagerank corpus d n rnd)
    = Raise IndexError.
Proof.
  intros Hnd Hempty.
  destruct (crawl_Ok findall directory Hnd) as (corpus & Hrun & Hkeys & _).
  rewrite Hempty in Hkeys. apply fmap_nil_inv in Hkeys as ->.
  rewrite Hrun. done.
Qed.

Lemma crawl_no_pages_witness :
  crawl words [("notes.txt"%string, "a.html"%string)] = Ok []
  ∧ (corpus ← crawl words [("notes.txt"%string, "a.html"%string)];
     sample_pagerank corpus DAMPING SAMPLES (fun _ => 1 # 2))
    = Raise IndexError.
Proof.
  apply (crawl_no_pages words [("notes.txt"%string, "a.html"%string)]).
  - decide_closed.
  - reflexivity.
Defined.

(** X15. The two estimators on the corpus [crawl] builds, with the constants
    of the program (damping 0.85, 10000 samples): when the directory has at
    least one page, the sampler raises nothing and returns, for exactly the
    pages, a non-negative integer counter divided by 10000, the counters
    totalling 10000; the iteration raises nothing and returns a rank for
    exactly the pages. *)
Theorem crawl_then_estimate findall directory rnd :
  NoDup directory.*1 → html_entries directory ≠ [] → unit_variates rnd →
  ∃ corpus, crawl findall directory = Ok corpus
    ∧ (∃ counts : dict Z,
         sample_pagerank corpus DAMPING SAMPLES rnd
         = Ok (frequencies counts SAMPLES)
         ∧ keys counts = (html_entries directory).*1
         ∧ Forall (fun c => (0 <= c)%Z) (values counts)
         ∧ Zsum (values counts) = SAMPLES)
    ∧ (∀ fuel r, iterate_pagerank fuel corpus DAMPING = Some r →
         ∃ ranks, r = Ok ranks ∧ keys ranks = (html_entries directory).*1).
Proof.
  intros Hnd Hpages Hrnd.
  destruct (crawl_Ok findall directory Hnd) as (corpus & Hrun & Hkeys & _).
  assert (NoDup (keys corpus)) as Hndk.
  { rewrite Hkeys. by apply html_entries_NoDup. }
  assert (corpus ≠ []) as Hne.
  { intros ->. simpl in Hkeys. symmetry in Hkeys.
    by apply fmap_nil_inv in Hkeys. }
  exists corpus. split; [done|]. split.
  - destruct (sample_pagerank_counts corpus DAMPING SAMPLES rnd)
      as (counts & Hs & Hk & Hpos & Hsum & _ & _); [done..|].
    exists counts. split; [done|]. split; [|done].
    rewrite <- Hkeys, <- Hk.
    destruct (frequencies_facts counts SAMPLES) as (-> & _); done.
  - intros fuel r Hr. rewrite <- Hkeys.
    by apply (iterate_pagerank_Ok_keys corpus DAMPING fuel).
Qed.

Lemma crawl_then_estimate_witness :
  ∃ corpus, crawl words directory_demo = Ok corpus
    ∧ (∃ counts : dict Z,
         sample_pagerank corpus DAMPING SAMPLES
           (fun k => Z.of_nat (k mod 4) # 4)
         = Ok (frequencies counts SAMPLES)
         ∧ keys counts = (html_entries directory_demo).*1
         ∧ Forall (fun c => (0 <= c)%Z) (values counts)
         ∧ Zsum (values counts) = SAMPLES)
    ∧ (∀ fuel r, iterate_pagerank fuel corpus DAMPING = Some r →
         ∃ ranks, r = Ok ranks ∧ keys ranks = (html_entries directory_demo).*1).
Proof.
  apply (crawl_then_estimate words directory_demo).
  - decide_closed.
  - discriminate.
  - intros k. unfold Qle, Qlt. simpl.
    pose proof (Nat.mod_upper_bound k 4). lia.
Defined.

